(** * archer: hierarchy extractor, architecture comparator, repair orchestrator

    A shallow embedding of the decision logic of
    [src/comparator.py], [src/framework/extractor.py] and [src/archer.py],
    with the properties of the design document proved (or refuted) on it.

    Conventions of the embedding.
    - A JSON object read with [dict.get(key, default)] is a record of
      optional fields; [None] is the absent key.
    - A Python [dict] used as a map is a [gmap]; a [dict] whose key order
      is observed is an association list in insertion order.
    - The iteration order of a Python [set] is not specified by the
      language: it is a parameter of the development ([set_order]) about
      which only "every element once" is assumed.
    - A recursive Python function takes a bound on the depth of nested
      calls; [None] is the outcome of a call that does not finish within
      that bound (or that raises). *)

From Stdlib Require Import Ascii.
From stdpp Require Import gmap strings list sorting.

#[local] Set Warnings "-clear-no-such-hyp".

(** ** Python helpers *)

(** Truthiness of a [str]: the empty string is falsy. *)
Definition truthy (s : string) : bool := negb (String.eqb s "").

(** [d.get(k, "")] and [d.get(k, [])] on an optional field. *)
Definition get_str (o : option string) : string := default "" o.
Definition get_list {A} (o : option (list A)) : list A := default [] o.

(** A [for] loop whose body may fail: the state is threaded from one
    element to the next, the first failure aborts the loop. *)
Fixpoint for_each {A S} (body : A → S → option S) (l : list A) (s : S)
  : option S :=
  match l with
  | [] => Some s
  | x :: l => match body x s with
              | Some s' => for_each body l s'
              | None => None
              end
  end.

(** A body that only appends. *)
Definition appends {A D} (body : A → list D → option (list D)) : Prop :=
  ∀ x d, body x d = (d ++.) <$> body x [].

(** [sorted(l)] on a list of [str]: the order is the lexicographic order
    on code units, total and antisymmetric, so the result is the unique
    sorted rearrangement of [l]. *)
Definition sorted (l : list string) : list string := merge_sort String.le l.

(** ** The architecture comparator, [src/comparator.py] *)

Module Comparator.

(** A node of the tree, as [json.load] returns it. *)
#[local] Unset Elimination Schemes.
Inductive node : Type := Node {
  Module_name : option string;
  Instance_name : option string;
  File_path : option string;
  Port : option (list string);
  Instances : option (list node) }.
#[local] Set Elimination Schemes.

(** A child is filed in [s_map] under [c.get("Instance_name")], which is
    [None] when the field is absent. *)
Abbreviation key := (option string).

(** One side of a difference: a summary of the node, or ["Missing"]. *)
Record summary : Type := Summary {
  sum_Module_name : string;
  sum_Instance_name : key;
  sum_Port : list string }.

Inductive side : Type :=
| Present (s : summary)
| Missing.

Record diff : Type := Diff {
  file : string;
  SPEC : side;
  Parsed : side }.

Global Instance summary_eq_dec : EqDecision summary.
Proof. solve_decision. Defined.
Global Instance side_eq_dec : EqDecision side.
Proof. solve_decision. Defined.
Global Instance diff_eq_dec : EqDecision diff.
Proof. solve_decision. Defined.

(** [port_str.replace(" ", "")] *)
Fixpoint normalize_port (port_str : string) : string :=
  match port_str with
  | EmptyString => EmptyString
  | String c s =>
      if Ascii.eqb c " "%char then normalize_port s
      else String c (normalize_port s)
  end.

(** [sorted([normalize_port(p) for p in ports])] *)
Definition ports_norm (ports : list string) : list string :=
  sorted (normalize_port <$> ports).

(** [{c.get("Instance_name"): c for c in children}]: a later child
    replaces an earlier one with the same key. *)
Definition children_map (children : list node) : gmap key node :=
  foldl (λ m c, <[Instance_name c := c]> m) ∅ children.

(** The keys of the children, in the order of the list. *)
Definition child_keys (children : list node) : list key :=
  Instance_name <$> children.

(** Number of nested levels of a tree. *)
Fixpoint height (n : node) : nat :=
  match n with
  | Node _ _ _ _ cs =>
      S (match cs with
         | Some l => foldr (λ c h, height c `max` h) 0 l
         | None => 0
         end)
  end.

(** The test of line 34: the module names differ, or the normalized
    sorted port lists differ. *)
Definition node_mismatch (spec_node parsed_node : node) : bool :=
  let s_mod := get_str (Module_name spec_node) in
  let p_mod := get_str (Module_name parsed_node) in
  let s_ports_norm := ports_norm (get_list (Port spec_node)) in
  let p_ports_norm := ports_norm (get_list (Port parsed_node)) in
  bool_decide (s_mod ≠ p_mod) || bool_decide (s_ports_norm ≠ p_ports_norm).

(** The file a record at the current pair is filed under, lines 30-32. *)
Definition current_node_file (parsed_node : node) (parent_file : option string)
  : string :=
  let f := get_str (File_path parsed_node) in
  if truthy f then f
  else match parent_file with
       | Some pf => if truthy pf then pf else "Top Level"
       | None => "Top Level"
       end.

(** The file handed to the children, lines 57-59. *)
Definition current_file (spec_node parsed_node : node) : string :=
  let s_mod := get_str (Module_name spec_node) in
  let p_mod := get_str (Module_name parsed_node) in
  let f := get_str (File_path parsed_node) in
  if truthy f then f
  else if truthy p_mod then p_mod +:+ ".v"
  else if truthy s_mod then s_mod +:+ ".v"
  else "Unknown.v".

(** The record appended at line 35. *)
Definition pair_record (spec_node parsed_node : node)
    (parent_file : option string) : diff :=
  {| file := current_node_file parsed_node parent_file;
     SPEC := Present {| sum_Module_name := get_str (Module_name spec_node);
                        sum_Instance_name :=
                          Some (get_str (Instance_name spec_node));
                        sum_Port := get_list (Port spec_node) |};
     Parsed := Present {| sum_Module_name := get_str (Module_name parsed_node);
                          sum_Instance_name :=
                            Some (get_str (Instance_name parsed_node));
                          sum_Port := get_list (Port parsed_node) |} |}.

(** The record appended at line 65, for a key of [s_map] only. *)
Definition missing_in_parsed (cur_file : string) (k : key) (sc : node) : diff :=
  {| file := cur_file;
     SPEC := Present {| sum_Module_name := get_str (Module_name sc);
                        sum_Instance_name := k;
                        sum_Port := get_list (Port sc) |};
     Parsed := Missing |}.

(** The record appended at line 78, for a key of [p_map] only:
    [child_node.get("File_path", current_file)] takes the default only
    when the field is absent. *)
Definition missing_in_spec (cur_file : string) (k : key) (pc : node) : diff :=
  {| file := default cur_file (File_path pc);
     SPEC := Missing;
     Parsed := Present {| sum_Module_name := get_str (Module_name pc);
                          sum_Instance_name := k;
                          sum_Port := get_list (Port pc) |} |}.

(** The body of the loop of line 61; [rec] is the recursive call. The
    last case is [p_map[key]] on a key of neither map, a [KeyError]. *)
Definition loop_body
    (rec : node → node → option string → list diff → option (list diff))
    (s_map p_map : gmap key node) (cur_file : string)
    (k : key) (diffs : list diff) : option (list diff) :=
  match s_map !! k, p_map !! k with
  | Some sc, Some pc => rec sc pc (Some cur_file) diffs
  | Some sc, None => Some (diffs ++ [missing_in_parsed cur_file k sc])
  | None, Some pc => Some (diffs ++ [missing_in_spec cur_file k pc])
  | None, None => None
  end.

Section WithSetOrder.

(** [set(s_map.keys()) | set(p_map.keys())], listed in the order in
    which the [for] loop visits it. The arguments are the keys of the
    two dictionaries in insertion order. *)
Context (set_order : list key → list key → list key).

(** [diffs] is the list the Python function appends to; the result is
    the list after the call. *)
Fixpoint find_arch_diffs (fuel : nat) (spec_node parsed_node : node)
    (parent_file : option string) (diffs : list diff)
  : option (list diff) :=
  match fuel with
  | 0 => None
  | S fuel =>
      let diffs :=
        if node_mismatch spec_node parsed_node
        then diffs ++ [pair_record spec_node parsed_node parent_file]
        else diffs in
      let s_children := get_list (Instances spec_node) in
      let p_children := get_list (Instances parsed_node) in
      let s_map := children_map s_children in
      let p_map := children_map p_children in
      let all_keys :=
        set_order (child_keys s_children) (child_keys p_children) in
      let cur_file := current_file spec_node parsed_node in
      for_each (loop_body (find_arch_diffs fuel) s_map p_map cur_file)
               all_keys diffs
  end.

(** [run_compare], without the files: the report for two loaded trees.
    The depth bound is the height of the expected tree, which the
    recursion cannot exceed. *)
Definition run_compare (spec_data parsed_data : node) : option (list diff) :=
  find_arch_diffs (height spec_data) spec_data parsed_data None [].

End WithSetOrder.

(** A set order: every key once, at the place of its last occurrence
    in the keys of [s_map] followed by the keys of [p_map]. *)
Definition first_seen (a b : list key) : list key := remove_dups (a ++ b).

(** What is assumed of the order in which a set is visited. *)
Definition set_order_ok (set_order : list key → list key → list key) : Prop :=
  ∀ a b, NoDup (set_order a b) ∧ ∀ k, k ∈ set_order a b ↔ k ∈ a ∨ k ∈ b.

(** The records appended for the current pair itself: one or none. *)
Definition pair_records (spec_node parsed_node : node)
    (parent_file : option string) : list diff :=
  if node_mismatch spec_node parsed_node
  then [pair_record spec_node parsed_node parent_file]
  else [].

(** The records the loop over the children appends, started on an
    empty list. *)
Definition children_diffs (set_order : list key → list key → list key)
    (fuel : nat) (spec_node parsed_node : node) : option (list diff) :=
  let s_children := get_list (Instances spec_node) in
  let p_children := get_list (Instances parsed_node) in
  for_each (loop_body (find_arch_diffs set_order fuel)
              (children_map s_children) (children_map p_children)
              (current_file spec_node parsed_node))
           (set_order (child_keys s_children) (child_keys p_children)) [].

(** Field updates. *)
Definition set_Port (n : node) (ps : option (list string)) : node :=
  Node (Module_name n) (Instance_name n) (File_path n) ps (Instances n).
Definition set_Instance_name (n : node) (i : option string) : node :=
  Node (Module_name n) i (File_path n) (Port n) (Instances n).
Definition set_Instances (n : node) (cs : option (list node)) : node :=
  Node (Module_name n) (Instance_name n) (File_path n) (Port n) cs.

(** Two trees without structural difference: same module name and same
    normalized ports at every matched pair, same instance names at
    every level. *)
Inductive same_structure : node → node → Prop :=
| same_structure_intro s p :
    get_str (Module_name s) = get_str (Module_name p) →
    ports_norm (get_list (Port s)) = ports_norm (get_list (Port p)) →
    (∀ k, k ∈ child_keys (get_list (Instances s)) ↔
          k ∈ child_keys (get_list (Instances p))) →
    (∀ k sc pc,
        children_map (get_list (Instances s)) !! k = Some sc →
        children_map (get_list (Instances p)) !! k = Some pc →
        same_structure sc pc) →
    same_structure s p.



(** The file resolution rule in the words of the design document: the
    file of the actual node if it has one, else the resolved file of
    the parent, else the "Top Level" marker at the root. The document
    uses the same rule for a record of the pair, for the context handed
    to the children and for an instance of the actual tree only. *)
Definition doc_resolved_file (actual : node) (parent_resolved : option string)
  : string :=
  if truthy (get_str (File_path actual)) then get_str (File_path actual)
  else default "Top Level" parent_resolved.

(** The fields the document requires of a node. *)
Definition missing_required_field (n : node) : Prop :=
  Module_name n = None ∨ Instance_name n = None ∨
  Port n = None ∨ Instances n = None.

(** A node with its absent fields written out. *)
Definition with_defaults (n : node) : node :=
  Node (Some (get_str (Module_name n))) (Some (get_str (Instance_name n)))
       (Some (get_str (File_path n))) (Some (get_list (Port n)))
       (Some (get_list (Instances n))).

(** An entry rewritten by inserting or removing space characters. *)
Inductive space_edit : string → string → Prop :=
| space_edit_refl s : space_edit s s
| space_edit_insert s1 s2 : space_edit (s1 +:+ s2) (s1 +:+ " " +:+ s2)
| space_edit_remove s1 s2 : space_edit (s1 +:+ " " +:+ s2) (s1 +:+ s2)
| space_edit_trans a b c : space_edit a b → space_edit b c → space_edit a c.

(** A port list rearranged, its entries rewritten with [space_edit]. *)
Definition ports_edit (l l' : list string) : Prop :=
  ∃ l0, l ≡ₚ l0 ∧ Forall2 space_edit l0 l'.

End Comparator.

(** ** Strings and ordered dictionaries *)

(** [sep.join(l)] *)
Fixpoint join (sep : string) (l : list string) : string :=
  match l with
  | [] => ""
  | [x] => x
  | x :: l => x +:+ sep +:+ join sep l
  end.

(** [s] between double quotes. *)
Definition quoted (s : string) : string :=
  String (ascii_of_nat 34) (s +:+ String (ascii_of_nat 34) EmptyString).

(** [s.replace(c, '', 1)] for a one-character [c]. *)
Fixpoint remove_first (c : ascii) (s : string) : string :=
  match s with
  | EmptyString => EmptyString
  | String a s => if Ascii.eqb a c then s else String a (remove_first c s)
  end.

(** [s.lower()] on ASCII text: the letters A to Z are lowered, every
    other character is kept. *)
Definition lower_char (a : ascii) : ascii :=
  let n := nat_of_ascii a in
  if (65 <=? n) && (n <=? 90) then ascii_of_nat (n + 32) else a.

Fixpoint lower (s : string) : string :=
  match s with
  | EmptyString => EmptyString
  | String a s => String (lower_char a) (lower s)
  end.

(** [sub in s] *)
Fixpoint contains (sub s : string) : bool :=
  String.prefix sub s ||
  match s with
  | EmptyString => false
  | String _ s' => contains sub s'
  end.

(** [s.split(',')[0]] *)
Fixpoint before_comma (s : string) : string :=
  match s with
  | EmptyString => EmptyString
  | String a s => if Ascii.eqb a "," then EmptyString
                  else String a (before_comma s)
  end.

(** A [dict] with [str] keys whose key order is observed: the pairs in
    the order of first insertion. *)
Module OrderedDict.

Definition t (V : Type) : Type := list (string * V).

Fixpoint get {V} (k : string) (d : t V) : option V :=
  match d with
  | [] => None
  | (k', v) :: d => if decide (k = k') then Some v else get k d
  end.

(** [d[k] = v]: a known key keeps its place. *)
Fixpoint set {V} (k : string) (v : V) (d : t V) : t V :=
  match d with
  | [] => [(k, v)]
  | (k', v') :: d =>
      if decide (k = k') then (k, v) :: d else (k', v') :: set k v d
  end.

(** In-place change of the value under [k], if any. *)
Fixpoint update {V} (k : string) (f : V → V) (d : t V) : t V :=
  match d with
  | [] => []
  | (k', v) :: d =>
      if decide (k = k') then (k', f v) :: d else (k', v) :: update k f d
  end.

Definition keys {V} (d : t V) : list string := d.*1.
Definition values {V} (d : t V) : list V := d.*2.

End OrderedDict.

(** ** The hierarchy extractor, [src/framework/extractor.py] *)

Module Extractor.

(** The elaborated design, as [ET.parse] returns it: the attributes the
    code reads. *)
Record xml_var : Type := XmlVar {
  var_name : string;
  var_dir : string;
  var_vartype : string }.

Record xml_port : Type := XmlPort {
  xport_name : string;
  xport_direction : string;
  xport_varrefs : list string }.

Record xml_instance : Type := XmlInstance {
  inst_name : string;
  inst_defName : string;
  inst_ports : list xml_port }.

Record xml_module : Type := XmlModule {
  mod_name : string;
  mod_topModule : bool;          (* [module.get('topModule') == '1'] *)
  mod_loc : option string;
  mod_vars : list xml_var;
  mod_instances : list xml_instance }.

Record xml_doc : Type := XmlDoc {
  doc_files : list (string * string);   (* id, filename *)
  doc_modules : list xml_module }.

(** The dictionaries [parse_xml_module_hierarchy] builds. *)
Record submodule : Type := Submodule {
  sub_name : string;
  sub_type : string }.

Record connection : Type := Connection {
  conn_port : string;
  conn_direction : string;
  connected_to : list string }.

Record port : Type := MkPort {
  port_name : string;
  port_direction : string;
  port_type : string }.

Record module_info : Type := ModuleInfo {
  submodules : list submodule;
  top : bool;
  file_path : string;
  connections : option (gmap string (list connection)) }.

Record hierarchy_data : Type := HierarchyData {
  hierarchy : OrderedDict.t module_info;
  ports : gmap string (list port);
  top_modules : list string }.

Global Instance submodule_eq_dec : EqDecision submodule.
Proof. solve_decision. Defined.

(** [file_map[id] = filename] for every file, a later one replacing an
    earlier one. *)
Definition file_map_of (files : list (string * string)) : gmap string string :=
  foldl (λ m f, <[f.1 := f.2]> m) ∅ files.

(** The second loop of [parse_xml_module_hierarchy], lines 30-53. *)
Definition add_module (top_names : list string) (file_map : gmap string string)
    (acc : OrderedDict.t module_info * gmap string (list port))
    (m : xml_module) : OrderedDict.t module_info * gmap string (list port) :=
  let file_path :=
    match mod_loc m with
    | Some loc =>
        if truthy loc then default "" (file_map !! before_comma loc) else ""
    | None => ""
    end in
  let h := OrderedDict.set (mod_name m)
             {| submodules := [];
                top := bool_decide (mod_name m ∈ top_names);
                file_path := file_path;
                connections := None |} acc.1 in
  let ps :=
    foldl (λ ps v,
             if bool_decide (var_dir v ∈ ["input"; "output"; "inout"])
             then <[mod_name m :=
                      default [] (ps !! mod_name m) ++
                      [MkPort (var_name v) (var_dir v) (var_vartype v)]]> ps
             else ps)
          acc.2 (mod_vars m) in
  (h, ps).

(** The connections of one instance, lines 68-81. *)
Definition connections_of (i : xml_instance) : list connection :=
  (λ p, Connection (xport_name p) (xport_direction p) (xport_varrefs p))
    <$> inst_ports i.

(** The third loop, lines 55-84: the instances of a module are appended
    to the entry of its name. *)
Definition add_instance (name : string) (h : OrderedDict.t module_info)
    (i : xml_instance) : OrderedDict.t module_info :=
  OrderedDict.update name
    (λ info,
       {| submodules := submodules info ++
                          [Submodule (inst_name i) (inst_defName i)];
          top := top info;
          file_path := file_path info;
          connections :=
            Some (<[inst_name i := connections_of i]>
                    (default ∅ (connections info))) |})
    h.

Definition add_instances (h : OrderedDict.t module_info) (m : xml_module)
  : OrderedDict.t module_info :=
  foldl (add_instance (mod_name m)) h (mod_instances m).

(** The names of the modules flagged as top, in the order of the
    document. *)
Definition flagged (doc : xml_doc) : list string :=
  mod_name <$> filter (λ m, mod_topModule m = true) (doc_modules doc).

(** The types [t] of the submodules of all modules. *)
Definition instantiated_modules (h : OrderedDict.t module_info) : list string :=
  OrderedDict.values h ≫= λ info, sub_type <$> submodules info.

Section WithSetList.

(** [list(S)] for the set [S] built by adding the given elements in
    turn: its elements in the order in which the set is visited. *)
Context (list_of_set : list string → list string).

(** [str.lower], of which nothing is assumed; on ASCII text it is
    [lower]. *)
Context (str_lower : string → string).

Definition parse_xml_module_hierarchy (doc : xml_doc) : hierarchy_data :=
  let file_map := file_map_of (doc_files doc) in
  let top_names := flagged doc in
  let acc := foldl (add_module top_names file_map) ([], ∅) (doc_modules doc) in
  let h := foldl add_instances acc.1 (doc_modules doc) in
  {| hierarchy := h;
     ports := acc.2;
     top_modules := list_of_set top_names |}.

(** [run_extract], lines 293-314: the choice of the top module.
    [base_name] is the name of the XML file without directory and
    extension. *)
Definition select_top_module (base_name : string) (hd : hierarchy_data)
  : option string :=
  let top_modules :=
    if bool_decide (top_modules hd = []) then
      let all_modules := list_of_set (OrderedDict.keys (hierarchy hd)) in
      let instantiated_modules := instantiated_modules (hierarchy hd) in
      let top_modules :=
        list_of_set
          (filter (λ m, m ∉ instantiated_modules) all_modules) in
      if bool_decide (top_modules = []) then
        let module_prefix := remove_first "V" base_name in
        let top_candidates :=
          filter (λ m, contains (str_lower module_prefix) (str_lower m) = true)
                 (OrderedDict.keys (hierarchy hd)) in
        if bool_decide (top_candidates = []) then
          OrderedDict.keys (hierarchy hd)
        else top_candidates
      else top_modules
    else top_modules hd in
  head top_modules.

End WithSetList.

(** One admissible [list_of_set]: every element once, at the place of
    its last occurrence in the list. *)
Definition in_order (l : list string) : list string := remove_dups l.

(** Another one: every element once, in descending order. *)
Definition in_descending_order (l : list string) : list string :=
  reverse (sorted (remove_dups l)).

(** What is assumed of [list_of_set]. *)
Definition list_of_set_ok (list_of_set : list string → list string) : Prop :=
  ∀ l, NoDup (list_of_set l) ∧ ∀ x, x ∈ list_of_set l ↔ x ∈ l.

(** *** The walks of the hierarchy *)

(** [print_module_hierarchy]: [out] is the text printed so far, line by
    line. *)
Fixpoint print_module_hierarchy (fuel : nat) (hd : hierarchy_data)
    (module_name : string) (level : nat) (indent : string)
    (out : list string) : option (list string) :=
  match fuel with
  | 0 => None
  | S fuel =>
      let out := if level =? 0 then out ++ [module_name] else out in
      let indent := if level =? 0 then "" else indent in
      match OrderedDict.get module_name (hierarchy hd) with
      | None => Some out
      | Some module_info =>
          let subs := submodules module_info in
          for_each
            (λ sub out,
               let is_last := bool_decide (Some sub = last subs) in
               let out :=
                 out ++ [indent +:+ (if is_last then "└── " else "├── ")
                           +:+ sub_name sub +:+ "(" +:+ sub_type sub +:+ ")"] in
               match OrderedDict.get (sub_type sub) (hierarchy hd) with
               | Some _ =>
                   let new_indent :=
                     indent +:+ (if is_last then "    " else "│   ") in
                   print_module_hierarchy fuel hd (sub_type sub)
                     (level + 1) new_indent out
               | None => Some out
               end)
            subs out
      end
  end.

(** [build_structure] of [export_hierarchy_to_json]; the node is the
    JSON object the comparator reads back. *)
Fixpoint build_structure (fuel : nat) (hd : hierarchy_data)
    (module_name instance_name : string)
    (conns : option (list connection)) : option Comparator.node :=
  match fuel with
  | 0 => None
  | S fuel =>
      let info := OrderedDict.get module_name (hierarchy hd) in
      let file_path := from_option file_path "" info in
      let port_list :=
        match conns with
        | None => port_name <$> default [] (ports hd !! module_name)
        | Some conns =>
            (λ c, conn_port c +:+ " : " +:+ join ", " (connected_to c))
              <$> conns
        end in
      children ←
        match info with
        | Some module_info =>
            let module_connections :=
              default ∅ (connections module_info) in
            mapM (λ sub,
                    build_structure fuel hd (sub_type sub) (sub_name sub)
                      (Some (default [] (module_connections !! sub_name sub))))
                 (submodules module_info)
        | None => Some []
        end;
      Some (Comparator.Node (Some module_name) (Some instance_name)
              (Some file_path) (Some port_list) (Some children))
  end.

(** [add_module_nodes] of [export_hierarchy_to_dot]: the state is the
    [visited] set with the lines written so far. *)
Fixpoint add_module_nodes (fuel : nat) (hd : hierarchy_data)
    (module_name : string) (parent : option string)
    (st : gset string * list string) : option (gset string * list string) :=
  match fuel with
  | 0 => None
  | S fuel =>
      if bool_decide (module_name ∈ st.1) then Some st
      else
        let visited := {[module_name]} ∪ st.1 in
        let out :=
          st.2 ++
          ["  " +:+ quoted module_name +:+ " [label=" +:+ quoted module_name
             +:+ "];"] ++
          match parent with
          | Some parent =>
              if truthy parent
              then ["  " +:+ quoted parent +:+ " -> " +:+ quoted module_name
                      +:+ ";"]
              else []
          | None => []
          end in
        match OrderedDict.get module_name (hierarchy hd) with
        | None => Some (visited, out)
        | Some module_info =>
            for_each
              (λ sub st,
                 let instance_name := module_name +:+ "." +:+ sub_name sub in
                 let out :=
                   st.2 ++
                   ["  " +:+ quoted instance_name +:+ " [label="
                      +:+ quoted (sub_name sub +:+ "\n(" +:+ sub_type sub
                                    +:+ ")")
                      +:+ ", shape=ellipse, fillcolor=lightgreen];";
                    "  " +:+ quoted module_name +:+ " -> "
                      +:+ quoted instance_name +:+ " [style=dashed];";
                    "  " +:+ quoted instance_name +:+ " -> "
                      +:+ quoted (sub_type sub) +:+ " [label="
                      +:+ quoted " " +:+ "];"] in
                 add_module_nodes fuel hd (sub_type sub) None (st.1, out))
              (submodules module_info) (visited, out)
        end
  end.

(** The names of the modules of the document, and the module types of
    all its instances. *)
Definition module_names (doc : xml_doc) : list string :=
  mod_name <$> doc_modules doc.
Definition def_names (doc : xml_doc) : list string :=
  doc_modules doc ≫= λ m, inst_defName <$> mod_instances m.

(** The modules that are the type of no instance. *)
Definition never_instantiated (doc : xml_doc) : list string :=
  filter (λ m, m ∉ def_names doc) (module_names doc).

(** The modules whose name contains, letter case apart, the base name
    of the file without its first [V]. *)
Definition name_candidates (str_lower : string → string)
    (base_name : string) (names : list string) : list string :=
  filter (λ m, contains (str_lower (remove_first "V" base_name))
                 (str_lower m) = true)
         names.

(** A design of three modules, none flagged: [core] is instantiated
    by [soc] twice, [soc] by nobody, [pad] by [soc]. *)
Definition sample_doc : xml_doc :=
  {| doc_files := [("a", "rtl/soc.v"); ("b", "rtl/core.v")];
     doc_modules :=
       [XmlModule "core" false (Some "b,1,1,1,1") [] [];
        XmlModule "soc" false (Some "a,3,1,9,1")
          [XmlVar "clk" "input" "logic"]
          [XmlInstance "u0" "core" []; XmlInstance "u1" "core" [];
           XmlInstance "p0" "pad" []];
        XmlModule "pad" false None [] []] |}.

(** A design of two modules, none flagged and none instantiated. *)
Definition two_roots_doc : xml_doc :=
  {| doc_files := [];
     doc_modules := [XmlModule "X" false None [] [];
                     XmlModule "top" false None [] []] |}.

(** [b] is a known module of which [a] has an instance. *)
Definition instantiates (hd : hierarchy_data) (a b : string) : Prop :=
  ∃ info sub,
    OrderedDict.get a (hierarchy hd) = Some info ∧
    sub ∈ submodules info ∧ sub_type sub = b ∧
    is_Some (OrderedDict.get b (hierarchy hd)).

(** A design whose only module has an instance of itself. *)
Definition self_instance : hierarchy_data :=
  {| hierarchy :=
       [("A", {| submodules := [Submodule "u" "A"]; top := true;
                 file_path := "a.v"; connections := Some {["u" := []]} |})];
     ports := ∅;
     top_modules := ["A"] |}.

(** [A] has an instance of [B], which has an instance of [A]. *)
Definition mutual_instance : hierarchy_data :=
  {| hierarchy :=
       [("A", {| submodules := [Submodule "b0" "B"]; top := true;
                 file_path := "a.v"; connections := None |});
        ("B", {| submodules := [Submodule "a0" "A"]; top := false;
                 file_path := "b.v"; connections := None |})];
     ports := ∅;
     top_modules := ["A"] |}.

End Extractor.

(** ** The repair orchestrator, [src/archer.py] *)

Module Orchestrator.
Import Comparator.

(** What the run does to the outside, in order. *)
Inductive event : Type :=
| EvCmd (cmd : string)                       (* [run_cmd(cmd)] *)
| EvFix (path : string)                      (* [get_llm_fix] for a file *)
| EvBackup (path content : string)           (* [shutil.copy] to [path.bak] *)
| EvWrite (path content : string).           (* the file is overwritten *)

Global Instance event_eq_dec : EqDecision event.
Proof. solve_decision. Defined.

(** The source files with their backups, which the orchestrator alone
    writes, and the events so far. *)
Record world : Type := World {
  files : gmap string string;
  log : list event }.

Definition emit (ev : event) (w : world) : world :=
  {| files := files w; log := log w ++ [ev] |}.

(** The collaborators of the run: the interpreter, [make xml] with the
    extractor, the comparator with the diff file it leaves (no value
    when a step fails or the file is not there), the repair service,
    and the verdict read from the log of [make all]. Each may depend
    on everything that happened before. *)
Record env : Type := Env {
  step1_parse_spec : world → bool;
  step2_parse_rtl : world → bool;
  step3_compare : world → option (list diff);
  get_llm_fix : diff → string → world → option string;
  check_sim_pass : world → bool }.

Definition MAX_ITER : nat := 5.

(** How a run ends. *)
Inductive verdict : Type :=
| SpecParsingFailed          (* [step1_parse_spec] failed *)
| Aborted                    (* RTL parsing or comparison failed *)
| SimulationPassed           (* "SUCCESS: Simulation Passed!" *)
| CleanButFailing            (* "FAILURE: Simulation Failed despite no arch diffs." *)
| NoFileModified             (* "No files were modified. Stopping." *)
| Exhausted.                 (* the loop ran [MAX_ITER] times *)

(** [os.path.exists] on the files of the model. *)
Definition exists_file (w : world) (path : string) : bool :=
  bool_decide (is_Some (files w !! path)).

(** The body of the loop over the diffs, lines 177-206. The state is
    the world with [modified_files]. *)
Definition fix_one (e : env) (st : world * list string) (d : diff)
  : world * list string :=
  let w := st.1 in
  let file_path := file d in
  if negb (truthy file_path) || negb (exists_file w file_path) then st
  else
    let original_content := default "" (files w !! file_path) in
    let w := emit (EvFix file_path) w in
    match get_llm_fix e d original_content w with
    | Some new_content =>
        if truthy new_content then
          let backup_path := file_path +:+ ".bak" in
          let w :=
            if exists_file w backup_path then w
            else
              emit (EvBackup file_path original_content)
                {| files := <[backup_path := original_content]> (files w);
                   log := log w |} in
          let w :=
            emit (EvWrite file_path new_content)
              {| files := <[file_path := new_content]> (files w);
                 log := log w |} in
          (w, st.2 ++ [file_path])
        else (w, st.2)
    | None => (w, st.2)
    end.

(** One turn of the loop of [main], lines 139-225: the world after it,
    and the verdict if the loop is left. *)
Definition iteration (e : env) (w : world) : world * option verdict :=
  let w := emit (EvCmd "make xml") w in
  if negb (step2_parse_rtl e w) then (w, Some Aborted)
  else
    match step3_compare e w with
    | None => (w, Some Aborted)
    | Some [] =>
        let w := emit (EvCmd "make all") w in
        if check_sim_pass e w then (w, Some SimulationPassed)
        else (w, Some CleanButFailing)
    | Some diffs =>
        let st := foldl (fix_one e) (w, []) diffs in
        if bool_decide (st.2 = []) then (st.1, Some NoFileModified)
        else
          let w := emit (EvCmd "make all") st.1 in
          if check_sim_pass e w then (w, Some SimulationPassed)
          else (w, None)
    end.

(** [for i in range(n)] *)
Fixpoint iterations (e : env) (n : nat) (w : world) : world * verdict :=
  match n with
  | 0 => (w, Exhausted)
  | S n =>
      let r := iteration e w in
      match r.2 with
      | Some v => (r.1, v)
      | None => iterations e n r.1
      end
  end.

Definition main (e : env) (w : world) : world * verdict :=
  if negb (step1_parse_spec e w) then (w, SpecParsingFailed)
  else iterations e MAX_ITER w.

(** Number of backups of [path] made in a log. *)
Definition is_backup_of (path : string) (ev : event) : bool :=
  match ev with
  | EvBackup p _ => bool_decide (p = path)
  | _ => false
  end.

Definition backups_of (path : string) (l : list event) : nat :=
  length (filter (λ ev, is_backup_of path ev = true) l).

(** The three ways the body of the loop ends: the diff is skipped, the
    service gives nothing usable, or the file is rewritten. *)
Inductive fix_one_spec (e : env) (st : world * list string) (d : diff)
  : world * list string → Prop :=
| fix_skipped :
    truthy (file d) = false ∨ files st.1 !! file d = None →
    fix_one_spec e st d st
| fix_failed c :
    files st.1 !! file d = Some c →
    (get_llm_fix e d c (emit (EvFix (file d)) st.1) = None ∨
     get_llm_fix e d c (emit (EvFix (file d)) st.1) = Some "") →
    fix_one_spec e st d (emit (EvFix (file d)) st.1, st.2)
| fix_applied_first c new :
    file d ≠ "" →
    files st.1 !! file d = Some c →
    get_llm_fix e d c (emit (EvFix (file d)) st.1) = Some new → new ≠ "" →
    files st.1 !! (file d +:+ ".bak") = None →
    fix_one_spec e st d
      ({| files := <[file d := new]> (<[file d +:+ ".bak" := c]> (files st.1));
          log := log st.1 ++
                 [EvFix (file d); EvBackup (file d) c; EvWrite (file d) new] |},
       st.2 ++ [file d])
| fix_applied_again c new :
    file d ≠ "" →
    files st.1 !! file d = Some c →
    get_llm_fix e d c (emit (EvFix (file d)) st.1) = Some new → new ≠ "" →
    is_Some (files st.1 !! (file d +:+ ".bak")) →
    fix_one_spec e st d
      ({| files := <[file d := new]> (files st.1);
          log := log st.1 ++ [EvFix (file d); EvWrite (file d) new] |},
       st.2 ++ [file d]).




(** A repair service that rewrites every file, and a simulation that
    never passes. *)
Definition always_fix : env :=
  {| step1_parse_spec := λ _, true;
     step2_parse_rtl := λ _, true;
     step3_compare := λ _,
       Some [Diff "top.v" Missing Missing; Diff "top.v" Missing Missing;
             Diff "gone.v" Missing Missing];
     get_llm_fix := λ _ c _, Some (c +:+ "// fixed");
     check_sim_pass := λ _, false |}.

(** A repair service that never answers. *)
Definition never_fix : env :=
  {| step1_parse_spec := λ _, true;
     step2_parse_rtl := λ _, true;
     step3_compare := λ _, Some [Diff "top.v" Missing Missing];
     get_llm_fix := λ _ _ _, None;
     check_sim_pass := λ _, true |}.

Definition one_file : world :=
  {| files := {["top.v" := "module top; endmodule"]}; log := [] |}.


End Orchestrator.

(** ** Sample trees *)

Module Samples.
Import Comparator.

Definition leaf (m i : string) (ps : list string) : node :=
  Node (Some m) (Some i) None (Some ps) (Some []).

(** [Top -> {u1 : A, u2 : B}], no file recorded. *)
Definition spec_top : node :=
  Node (Some "top") (Some "Top") None (Some ["a : x"; "b : y"])
       (Some [leaf "A" "u1" ["p"]; leaf "B" "u2" []]).

(** The same design, written differently. *)
Definition parsed_same : node :=
  Node (Some "top") (Some "Top") None (Some ["b:y"; "a:x"])
       (Some [leaf "B" "u2" []; leaf "A" "u1" ["p "]]).

(** [u1] has another module, [u2] is gone, [u3] is new and carries an
    empty [File_path]. *)
Definition parsed_other : node :=
  Node (Some "top") (Some "Top") None (Some ["b:y"; "a:x"])
       (Some [leaf "A2" "u1" ["p"];
              Node (Some "C") (Some "u3") (Some "") (Some []) (Some [])]).

(** The JSON object [{}]. *)
Definition empty_object : node := Node None None None None None.

(** [Top -> {u1 : A}] against [Top -> {u1 : A2, u3 : C}], where no
    node of the actual tree has a file and [u3] carries an empty
    [File_path]. *)
Definition spec_small : node :=
  Node (Some "top") (Some "Top") None (Some []) (Some [leaf "A" "u1" ["p"]]).
Definition actual_u1 : node := leaf "A2" "u1" ["p"].
Definition actual_u3 : node :=
  Node (Some "C") (Some "u3") (Some "") (Some []) (Some []).
Definition parsed_small : node :=
  Node (Some "top") (Some "Top") None (Some []) (Some [actual_u1; actual_u3]).

End Samples.

(** ** Further definitions *)

Module More.
Import Comparator Extractor Orchestrator.

(** A record without file is a record for an instance of the actual
    tree only. *)
Definition filed (d : diff) : Prop :=
  file d = "" →
  SPEC d = Missing ∧ ∃ a, Parsed d = Present a.

(** The expected tree of the samples with a second, earlier [u2]. *)
Definition spec_shadowed (c : node) : node :=
  set_Instances Samples.spec_top
    (Some ([Samples.leaf "A" "u1" ["p"]] ++ c :: [Samples.leaf "B" "u2" []])).

(** [add_nested_module] of [export_nested_hierarchy_to_dot], with the
    [visited] set and the lines written so far as state. *)
Fixpoint add_nested_module (fuel : nat) (hd : hierarchy_data)
    (module_name : string)
    (st : gset string * list string) : option (gset string * list string) :=
  match fuel with
  | 0 => None
  | S fuel =>
      if bool_decide (module_name ∈ st.1) then Some st
      else
        let visited := {[module_name]} ∪ st.1 in
        let module_node_id := module_name +:+ "_node" in
        let out :=
          st.2 ++
          ["  subgraph " +:+ quoted ("cluster_" +:+ module_name) +:+ " {";
           "    label=" +:+ quoted module_name +:+ ";";
           "    style=filled;";
           "    color=lightgrey;";
           "    node [style=filled, fillcolor=white];";
           "    " +:+ quoted module_node_id +:+ " [label="
             +:+ quoted module_name +:+ ", shape=box, fillcolor=lightblue];"] in
        match OrderedDict.get module_name (hierarchy hd) with
        | None => Some (visited, out ++ ["  }"; ""])
        | Some module_info =>
            let out :=
              out ++
              (submodules module_info ≫= λ sub,
                 let instance_id := module_name +:+ "_" +:+ sub_name sub in
                 ["    " +:+ quoted instance_id +:+ " [label="
                    +:+ quoted (sub_name sub +:+ "\n(" +:+ sub_type sub
                                  +:+ ")")
                    +:+ ", shape=ellipse, fillcolor=lightgreen];";
                  "    " +:+ quoted module_node_id +:+ " -> "
                    +:+ quoted instance_id +:+ " [style=dashed];"]) ++
              ["  }"; ""] in
            for_each
              (λ sub st,
                 let instance_id := module_name +:+ "_" +:+ sub_name sub in
                 st' ←
                   (if bool_decide
                         (is_Some (OrderedDict.get (sub_type sub)
                                     (hierarchy hd))) &&
                       negb (bool_decide (sub_type sub ∈ st.1))
                    then add_nested_module fuel hd (sub_type sub) st
                    else Some st);
                 if bool_decide (sub_type sub ∈ st'.1) then
                   Some (st'.1,
                         st'.2 ++
                         ["  " +:+ quoted instance_id +:+ " -> "
                            +:+ quoted (sub_type sub +:+ "_node")
                            +:+ " [lhead="
                            +:+ quoted ("cluster_" +:+ sub_type sub)
                            +:+ "];"])
                 else Some st')
              (submodules module_info) (visited, out)
        end
  end.

(** [export_hierarchy_to_dot] and [export_nested_hierarchy_to_dot]:
    the lines of the file. *)
Definition export_hierarchy_to_dot (fuel : nat) (hd : hierarchy_data)
    (top_module : string) : option (list string) :=
  st ← add_module_nodes fuel hd top_module None
         (∅, ["digraph ModuleHierarchy {"; "  rankdir=LR;";
              "  node [shape=box, style=filled, fillcolor=lightblue];"; ""]);
  Some (st.2 ++ ["}"]).

Definition export_nested_hierarchy_to_dot (fuel : nat) (hd : hierarchy_data)
    (top_module : string) : option (list string) :=
  st ← add_nested_module fuel hd top_module
         (∅, ["digraph ModuleHierarchy {"; "  rankdir=TB;";
              "  compound=true;";
              "  node [shape=box, style=filled, fillcolor=lightblue];"; ""]);
  Some (st.2 ++ ["}"]).

(** What [run_extract] leaves when it returns [True]: the text of the
    hierarchy file and the tree of the JSON file. (The ports file is
    written from the dictionaries without any walk and is left out.) *)
Record extract_output : Type := ExtractOutput {
  hierarchy_txt : list string;
  json_tree : node }.

(** [run_extract]: no value when a walk does not return, [Some None]
    for [False], [Some (Some out)] for [True]. The document is absent
    when [ET.parse] raised. *)
Definition run_extract (list_of_set : list string → list string)
    (str_lower : string → string)
    (fuel : nat) (base_name : string) (xml : option xml_doc)
  : option (option extract_output) :=
  match xml with
  | None => Some None
  | Some doc =>
      let hd := parse_xml_module_hierarchy list_of_set doc in
      match select_top_module list_of_set str_lower base_name hd with
      | None => Some None
      | Some top_module =>
          txt ← print_module_hierarchy fuel hd top_module 0 "" [];
          tree ← build_structure fuel hd top_module "Top" None;
          Some (Some {| hierarchy_txt := txt; json_tree := tree |})
      end
  end.

(** The children [build_structure] computes for a module. *)
Definition children_of (fuel : nat) (hd : hierarchy_data) (m : string)
  : option (list node) :=
  match OrderedDict.get m (hierarchy hd) with
  | Some module_info =>
      mapM (λ sub,
              build_structure fuel hd (sub_type sub) (sub_name sub)
                (Some (default [] (default ∅ (connections module_info)
                                     !! sub_name sub))))
           (submodules module_info)
  | None => Some []
  end.

Definition port_list_of (hd : hierarchy_data) (m : string)
    (conns : option (list connection)) : list string :=
  match conns with
  | None => port_name <$> default [] (ports hd !! m)
  | Some conns =>
      (λ c, conn_port c +:+ " : " +:+ join ", " (connected_to c)) <$> conns
  end.

(** A node all of whose fields are there, as are those of the nodes
    below it. *)
#[local] Unset Elimination Schemes.
Inductive all_fields_present : node → Prop :=
| all_fields_intro m i f ps cs :
    Forall all_fields_present cs →
    all_fields_present (Node (Some m) (Some i) (Some f) (Some ps) (Some cs)).
#[local] Set Elimination Schemes.

(** Number of nodes of a tree. *)
Fixpoint node_count (n : node) : nat :=
  match n with
  | Node _ _ _ _ cs =>
      S (match cs with
         | Some l => foldr (λ c k, node_count c + k) 0 l
         | None => 0
         end)
  end.

(** What the parser records for one module of the document. *)
Definition file_of_module (doc : xml_doc) (m : xml_module) : string :=
  match mod_loc m with
  | Some loc =>
      if truthy loc
      then default "" (file_map_of (doc_files doc) !! before_comma loc)
      else ""
  | None => ""
  end.

Definition ports_of_module (m : xml_module) : list port :=
  (λ v, MkPort (var_name v) (var_dir v) (var_vartype v)) <$>
  filter (λ v, var_dir v ∈ ["input"; "output"; "inout"]) (mod_vars m).

Definition submodules_of_module (m : xml_module) : list submodule :=
  (λ i, Submodule (inst_name i) (inst_defName i)) <$> mod_instances m.

(** A design without a cycle of instances: the modules can be ranked
    so that every instance is of a module of lower rank. *)
Definition ranked (hd : hierarchy_data) (rank : string → nat) : Prop :=
  ∀ a b, instantiates hd a b → rank b < rank a.

(** A rank for the sample document: [soc] above [core] and [pad]. *)
Definition sample_rank (m : string) : nat :=
  if decide (m = "soc") then 1 else 0.

Definition sample_hd : hierarchy_data :=
  parse_xml_module_hierarchy in_order sample_doc.

(** The tree and the listing of the sample document. *)
Definition sample_tree : node :=
  Node (Some "soc") (Some "Top") (Some "rtl/soc.v") (Some ["clk"])
    (Some [Node (Some "core") (Some "u0") (Some "rtl/core.v") (Some [])
             (Some []);
           Node (Some "core") (Some "u1") (Some "rtl/core.v") (Some [])
             (Some []);
           Node (Some "pad") (Some "p0") (Some "") (Some []) (Some [])]).

Definition sample_listing : list string :=
  ["soc"; "├── u0(core)"; "├── u1(core)"; "└── p0(pad)"].

(** Number of runs of a command in a log. *)
Definition runs_of (cmd : string) (l : list event) : nat :=
  length (filter (λ ev, ev = EvCmd cmd) l).



End More.

(** ** The verdict of the simulation, [check_sim_pass] of [src/archer.py] *)

Module SimLog.

(** [check_sim_pass] on the log file: absent when the file is not there
    or cannot be read, else its text. [lower] acts on the letters A to
    Z. The two markers are made of ASCII letters and hold no k, and a
    character outside ASCII lowers to a character outside ASCII, to k,
    or to an i followed by a combining dot, none of which can stand in
    a marker: so the test gives what [str.lower] gives. *)
Definition check_sim_pass (log_file : option string) : bool :=
  match log_file with
  | None => false
  | Some content =>
      contains "sim passed" (lower content) ||
      contains "simulation passed" (lower content)
  end.

End SimLog.

(** * Properties *)

(** ** Loops *)

Section ForEach.
Context {A D : Type}.
Implicit Types (body : A → list D → option (list D)).


Lemma for_each_app body l1 l2 d :
  for_each body (l1 ++ l2) d = for_each body l1 d ≫= for_each body l2.
Proof.
  revert d. induction l1 as [|x l1 IH]; intros d; simpl; [done|].
  destruct (body x d); simpl; auto.
Qed.

Lemma for_each_appends body l d :
  appends body → for_each body l d = (d ++.) <$> for_each body l [].
Proof.
  intros Hb. revert d. induction l as [|x l IH]; intros d; simpl.
  - by rewrite app_nil_r.
  - rewrite (Hb x d). destruct (body x []) as [e|]; simpl; [|done].
    rewrite (IH (d ++ e)), (IH e).
    destruct (for_each body l []) as [r|]; simpl; [|done].
    by rewrite app_assoc.
Qed.

Lemma for_each_ext body1 body2 l d :
  (∀ x d, x ∈ l → body1 x d = body2 x d) →
  for_each body1 l d = for_each body2 l d.
Proof.
  revert d. induction l as [|x l IH]; intros d Hb; simpl; [done|].
  rewrite Hb by left. destruct (body2 x d); [|done].
  apply IH. intros y e Hy. apply Hb. by right.
Qed.

Lemma for_each_id body l d :
  (∀ x, x ∈ l → body x d = Some d) → for_each body l d = Some d.
Proof.
  induction l as [|x l IH]; intros Hb; simpl; [done|].
  rewrite Hb by left. apply IH. intros y Hy. apply Hb. by right.
Qed.

Lemma for_each_split body l1 x l2 d r :
  appends body →
  for_each body (l1 ++ x :: l2) d = Some r →
  ∃ b e a, for_each body l1 [] = Some b ∧ body x [] = Some e ∧
           for_each body l2 [] = Some a ∧ r = d ++ b ++ e ++ a.
Proof.
  intros Hb. rewrite for_each_app, (for_each_appends _ l1 d Hb).
  destruct (for_each body l1 []) as [b|]; simpl; [|done].
  rewrite (Hb x). destruct (body x []) as [e|]; simpl; [|done].
  rewrite (for_each_appends _ l2 _ Hb).
  destruct (for_each body l2 []) as [a|]; simpl; [|done].
  intros [= <-]. exists b, e, a. by rewrite <- !app_assoc.
Qed.


Lemma for_each_is_Some body l d :
  (∀ x e, x ∈ l → is_Some (body x e)) → is_Some (for_each body l d).
Proof.
  revert d. induction l as [|x l IH]; intros d Hb; simpl; [by eexists|].
  destruct (Hb x d) as [e ->]; [by left|].
  apply IH. intros y e' Hy. apply Hb. by right.
Qed.

End ForEach.

(** ** The comparator *)

Module ComparatorProofs.
Import Comparator.

(** *** The dictionary of the children *)

Lemma children_map_acc (l : list node) (m : gmap key node) k c :
  foldl (λ m c, <[Instance_name c := c]> m) m l !! k = Some c →
  (c ∈ l ∧ Instance_name c = k) ∨ m !! k = Some c.
Proof.
  revert m. induction l as [|x l IH]; intros m; simpl; [by right|].
  intros [[Hin Hk]|Hm]%IH.
  - left. split; [by right|done].
  - destruct (decide (Instance_name x = k)) as [<-|Hne].
    + rewrite lookup_insert_eq in Hm. injection Hm as <-.
      left. split; [by left|done].
    + rewrite lookup_insert_ne in Hm by done. by right.
Qed.

Lemma children_map_Some l k c :
  children_map l !! k = Some c → c ∈ l ∧ Instance_name c = k.
Proof.
  intros [H|H]%children_map_acc; [done|].
  by rewrite lookup_empty in H.
Qed.

Lemma children_map_acc_is_Some (l : list node) (m : gmap key node) k :
  is_Some (foldl (λ m c, <[Instance_name c := c]> m) m l !! k) ↔
  k ∈ child_keys l ∨ is_Some (m !! k).
Proof.
  revert m. induction l as [|x l IH]; intros m; simpl.
  - split; [by right|]. intros [H|H]; [|done]. by apply elem_of_nil in H.
  - rewrite IH. change (child_keys (x :: l)) with (Instance_name x :: child_keys l).
    rewrite elem_of_cons.
    destruct (decide (Instance_name x = k)) as [<-|Hne].
    + rewrite lookup_insert_eq. split; [intros _; by left; left|].
      intros _. right. by eexists.
    + rewrite lookup_insert_ne by done. split.
      * intros [?|?]; [left; by right|by right].
      * intros [[?|?]|?]; [congruence|by left|by right].
Qed.

Lemma children_map_is_Some l k :
  is_Some (children_map l !! k) ↔ k ∈ child_keys l.
Proof.
  unfold children_map. rewrite children_map_acc_is_Some.
  rewrite lookup_empty. split; [|by left].
  intros [?|[? ?]]; done.
Qed.

Lemma children_map_None l k :
  children_map l !! k = None ↔ k ∉ child_keys l.
Proof.
  rewrite <- children_map_is_Some, eq_None_not_Some. done.
Qed.

(** *** Height *)

Lemma height_child (n c : node) :
  c ∈ get_list (Instances n) → height c < height n.
Proof.
  destruct n as [m i f ps [l|]]; simpl; [|by intros ?%elem_of_nil].
  induction l as [|x l IH]; simpl; [by intros ?%elem_of_nil|].
  intros [->|Hin]%elem_of_cons; [lia|]. specialize (IH Hin). lia.
Qed.

Lemma height_pos n : 0 < height n.
Proof. destruct n; simpl; lia. Qed.

(** *** The recursion *)

Section Recursion.
Context (set_order : list key → list key → list key).

Lemma find_arch_diffs_unfold fuel s p pf diffs :
  find_arch_diffs set_order (S fuel) s p pf diffs =
  for_each (loop_body (find_arch_diffs set_order fuel)
              (children_map (get_list (Instances s)))
              (children_map (get_list (Instances p)))
              (current_file s p))
           (set_order (child_keys (get_list (Instances s)))
                      (child_keys (get_list (Instances p))))
           (diffs ++ pair_records s p pf).
Proof.
  simpl. unfold pair_records.
  destruct (node_mismatch s p); [done|by rewrite app_nil_r].
Qed.

Lemma loop_body_appends rec sm pm cf :
  (∀ sc pc f d, rec sc pc f d = (d ++.) <$> rec sc pc f []) →
  appends (loop_body rec sm pm cf).
Proof.
  intros Hrec k d. unfold loop_body.
  destruct (sm !! k), (pm !! k); simpl; auto.
Qed.

Lemma find_arch_diffs_appends fuel s p pf diffs :
  find_arch_diffs set_order fuel s p pf diffs =
  (diffs ++.) <$> find_arch_diffs set_order fuel s p pf [].
Proof.
  revert s p pf diffs. induction fuel as [|fuel IH]; intros s p pf diffs.
  - done.
  - rewrite !find_arch_diffs_unfold. simpl.
    pose proof (loop_body_appends _ (children_map (get_list (Instances s)))
      (children_map (get_list (Instances p))) (current_file s p) IH) as Hb.
    rewrite (for_each_appends _ _ (diffs ++ _) Hb).
    rewrite (for_each_appends _ _ (pair_records s p pf) Hb).
    destruct (for_each _ _ []) as [r|]; simpl; [|done].
    by rewrite app_assoc.
Qed.

(** The records of a call: those of the pair, then those of the loop. *)
Lemma find_arch_diffs_split fuel s p pf diffs :
  find_arch_diffs set_order (S fuel) s p pf diffs =
  (λ below, diffs ++ pair_records s p pf ++ below) <$>
    children_diffs set_order fuel s p.
Proof.
  rewrite find_arch_diffs_unfold. unfold children_diffs.
  rewrite for_each_appends
    by (apply loop_body_appends; intros; apply find_arch_diffs_appends).
  destruct (for_each _ _ []) as [r|]; simpl; [|done].
  by rewrite app_assoc.
Qed.


Context (Hord : set_order_ok set_order).

(** With the height of the expected tree as bound, the call returns. *)
Lemma find_arch_diffs_total fuel s p pf diffs :
  height s ≤ fuel → is_Some (find_arch_diffs set_order fuel s p pf diffs).
Proof.
  revert s p pf diffs. induction fuel as [|fuel IH]; intros s p pf diffs Hh.
  - pose proof (height_pos s). lia.
  - rewrite find_arch_diffs_unfold. apply for_each_is_Some.
    intros k d Hk. apply Hord in Hk. unfold loop_body.
    destruct (children_map (get_list (Instances s)) !! k) as [sc|] eqn:Hs,
             (children_map (get_list (Instances p)) !! k) as [pc|] eqn:Hp;
      [|by eexists..|].
    + apply IH. apply children_map_Some in Hs as [Hin _].
      apply height_child in Hin. lia.
    + apply children_map_None in Hs, Hp. tauto.
Qed.



(** Trees without structural difference add nothing to the report. *)
Lemma same_structure_no_diffs fuel s p pf diffs :
  same_structure s p → height s ≤ fuel →
  find_arch_diffs set_order fuel s p pf diffs = Some diffs.
Proof.
  revert s p pf diffs. induction fuel as [|fuel IH]; intros s p pf diffs Hsame Hh.
  - pose proof (height_pos s). lia.
  - destruct Hsame as [s p Hmod Hports Hkeys Hch].
    rewrite find_arch_diffs_unfold. unfold pair_records, node_mismatch.
    rewrite !bool_decide_eq_false_2 by (intros ?; done). simpl.
    rewrite app_nil_r. apply for_each_id. intros k Hk.
    apply Hord in Hk. unfold loop_body.
    assert (k ∈ child_keys (get_list (Instances s))) as Hks
      by (destruct Hk as [Hk|Hk]; [done|by apply Hkeys]).
    pose proof Hks as Hkp. rewrite Hkeys in Hkp.
    apply children_map_is_Some in Hks as [sc Hsc], Hkp as [pc Hpc].
    rewrite Hsc, Hpc. apply IH; [by eapply Hch|].
    apply children_map_Some in Hsc as [Hin _].
    apply height_child in Hin. lia.
Qed.




End Recursion.

Lemma first_seen_ok : set_order_ok first_seen.
Proof.
  intros a b. unfold first_seen. split; [apply NoDup_remove_dups|].
  intros k. by rewrite elem_of_remove_dups, elem_of_app.
Qed.

Lemma truthy_true s : truthy s = true ↔ s ≠ "".
Proof.
  unfold truthy. rewrite negb_true_iff. split.
  - intros H ->. by rewrite String.eqb_refl in H.
  - intros H. by apply String.eqb_neq.
Qed.

Lemma truthy_false s : truthy s = false ↔ s = "".
Proof.
  unfold truthy. rewrite negb_false_iff. apply String.eqb_eq.
Qed.


Lemma node_mismatch_false s p :
  node_mismatch s p = false ↔
  get_str (Module_name s) = get_str (Module_name p) ∧
  ports_norm (get_list (Port s)) = ports_norm (get_list (Port p)).
Proof.
  unfold node_mismatch. rewrite orb_false_iff, !bool_decide_eq_false.
  split; intros [H1 H2]; split; try (by apply dec_stable); by intros ?.
Qed.

(** *** Normalized ports *)

Lemma normalize_port_app s1 s2 :
  normalize_port (s1 +:+ s2) = normalize_port s1 +:+ normalize_port s2.
Proof.
  induction s1 as [|c s1 IH]; [done|].
  change (String c s1 +:+ s2) with (String c (s1 +:+ s2)). simpl.
  rewrite IH. by destruct (Ascii.eqb c " ").
Qed.

Lemma space_edit_normalize a b :
  space_edit a b → normalize_port a = normalize_port b.
Proof.
  induction 1 as [| | |a b c _ IH1 _ IH2]; [done| | |congruence];
    by rewrite !normalize_port_app.
Qed.

Lemma sorted_perm (l1 l2 : list string) : l1 ≡ₚ l2 → sorted l1 = sorted l2.
Proof.
  intros Hp. unfold sorted. apply (Sorted_unique String.le).
  - apply Sorted_merge_sort, _.
  - apply Sorted_merge_sort, _.
  - by rewrite !merge_sort_Permutation.
Qed.

Lemma ports_edit_norm l l' : ports_edit l l' → ports_norm l = ports_norm l'.
Proof.
  intros (l0 & Hp & Hf). unfold ports_norm.
  rewrite (sorted_perm _ (normalize_port <$> l0)) by by apply fmap_Permutation.
  f_equal. clear Hp. induction Hf as [|a b l1 l2 Hab _ IH]; [done|].
  rewrite !fmap_cons. f_equal; [by apply space_edit_normalize|done].
Qed.

(** *** The report of a pair *)



Lemma children_diffs_set_Port set_order fuel s p ps pp :
  children_diffs set_order fuel (set_Port s ps) (set_Port p pp) =
  children_diffs set_order fuel s p.
Proof. done. Qed.

(** C2. Rearranging the port list of either node of a pair, and
    inserting or removing space characters inside its entries, does
    not change whether a record is appended for the pair, and leaves
    the records of the children as they were; ports
    ["a : x"; "b : y"] against ["b:y"; "a:x"] on the same node give no
    record. *)
Theorem port_comparison_insensitive set_order fuel s p pf diffs ps pp :
  ports_edit (get_list (Port s)) ps →
  ports_edit (get_list (Port p)) pp →
  node_mismatch (set_Port s (Some ps)) (set_Port p (Some pp)) =
    node_mismatch s p ∧
  length (pair_records (set_Port s (Some ps)) (set_Port p (Some pp)) pf) =
    length (pair_records s p pf) ∧
  find_arch_diffs set_order (S fuel)
      (set_Port s (Some ps)) (set_Port p (Some pp)) pf diffs =
    (λ below, diffs ++
       pair_records (set_Port s (Some ps)) (set_Port p (Some pp)) pf ++ below)
    <$> children_diffs set_order fuel s p ∧
  pair_records (set_Port s (Some ["a : x"; "b : y"]))
               (set_Port s (Some ["b:y"; "a:x"])) pf = [].
Proof.
  intros Hs Hp.
  assert (node_mismatch (set_Port s (Some ps)) (set_Port p (Some pp)) =
          node_mismatch s p) as Hm.
  { unfold node_mismatch. simpl.
    by rewrite <- (ports_edit_norm _ _ Hs), <- (ports_edit_norm _ _ Hp). }
  split; [done|]. split; [|split].
  - unfold pair_records. rewrite Hm. by destruct (node_mismatch s p).
  - by rewrite find_arch_diffs_split, children_diffs_set_Port.
  - unfold pair_records.
    replace (node_mismatch _ _) with false; [done|].
    symmetry. apply node_mismatch_false. split; [done|]. by vm_compute.
Qed.

Lemma port_comparison_insensitive_witness :
  ports_edit (get_list (Port Samples.spec_top)) ["b:y"; "a:x"] ∧
  ports_edit (get_list (Port Samples.parsed_other)) ["a : x"; "b:y"] ∧
  node_mismatch (set_Port Samples.spec_top (Some ["b:y"; "a:x"]))
                (set_Port Samples.parsed_other (Some ["a : x"; "b:y"])) =
    node_mismatch Samples.spec_top Samples.parsed_other.
Proof.
  assert (ports_edit ["a : x"; "b : y"] ["b:y"; "a:x"]) as H1.
  { exists ["b : y"; "a : x"]. split; [apply Permutation_swap|].
    repeat constructor.
    - eapply space_edit_trans;
        [apply (space_edit_remove "b" ": y")|apply (space_edit_remove "b:" "y")].
    - eapply space_edit_trans;
        [apply (space_edit_remove "a" ": x")|apply (space_edit_remove "a:" "x")]. }
  assert (ports_edit ["b:y"; "a:x"] ["a : x"; "b:y"]) as H2.
  { exists ["a:x"; "b:y"]. split; [apply Permutation_swap|].
    repeat constructor.
    eapply space_edit_trans;
      [apply (space_edit_insert "a" ":x")|apply (space_edit_insert "a :" "x")]. }
  split; [exact H1|]. split; [exact H2|].
  exact (proj1 (port_comparison_insensitive first_seen 1 Samples.spec_top
                  Samples.parsed_other None [] _ _ H1 H2)).
Defined.

(** C10. When the module names are equal and the normalized sorted
    port lists are equal, no record is appended for the pair, whatever
    the instance names of the two nodes are: the call gives what it
    gives on the same nodes under any other instance names, namely the
    records of the children. *)
Theorem instance_name_not_compared set_order fuel s p pf diffs i1 i2 :
  get_str (Module_name s) = get_str (Module_name p) →
  ports_norm (get_list (Port s)) = ports_norm (get_list (Port p)) →
  pair_records (set_Instance_name s i1) (set_Instance_name p i2) pf = [] ∧
  find_arch_diffs set_order (S fuel)
      (set_Instance_name s i1) (set_Instance_name p i2) pf diffs =
    (diffs ++.) <$> children_diffs set_order fuel s p ∧
  find_arch_diffs set_order fuel
      (set_Instance_name s i1) (set_Instance_name p i2) pf diffs =
    find_arch_diffs set_order fuel s p pf diffs.
Proof.
  intros Hm Hp.
  assert (∀ j1 j2,
    pair_records (set_Instance_name s j1) (set_Instance_name p j2) pf = [])
    as Hnil.
  { intros j1 j2. unfold pair_records.
    replace (node_mismatch _ _) with false; [done|].
    symmetry. by apply node_mismatch_false. }
  assert (∀ j1 j2 f,
    find_arch_diffs set_order (S f)
      (set_Instance_name s j1) (set_Instance_name p j2) pf diffs =
    (diffs ++.) <$> children_diffs set_order f s p) as Hcall.
  { intros j1 j2 f. rewrite find_arch_diffs_split, Hnil.
    by change (children_diffs set_order f (set_Instance_name s j1)
                 (set_Instance_name p j2))
      with (children_diffs set_order f s p). }
  split; [done|]. split; [done|].
  destruct fuel as [|fuel]; [done|].
  rewrite Hcall.
  destruct s as [sm si sf sp sc], p as [pm pi pf' pp pc].
  by rewrite <- (Hcall si pi).
Qed.

Lemma instance_name_not_compared_witness :
  get_str (Module_name Samples.spec_top) =
    get_str (Module_name Samples.parsed_same) ∧
  ports_norm (get_list (Port Samples.spec_top)) =
    ports_norm (get_list (Port Samples.parsed_same)) ∧
  pair_records (set_Instance_name Samples.spec_top (Some "Top"))
               (set_Instance_name Samples.parsed_same (Some "dut")) None = [].
Proof.
  split; [reflexivity|]. split; [vm_compute; reflexivity|].
  refine (proj1 (instance_name_not_compared first_seen 1 Samples.spec_top
                   Samples.parsed_same None [] (Some "Top") (Some "dut") _ _)).
  - reflexivity.
  - vm_compute; reflexivity.
Defined.

Lemma same_structure_leaf m i j ps qs :
  ports_norm ps = ports_norm qs →
  same_structure (Samples.leaf m i ps) (Samples.leaf m j qs).
Proof.
  intros Hp. constructor; [done|done|done|].
  intros k sc pc [Hs _]%children_map_Some. by apply elem_of_nil in Hs.
Qed.

Example same_structure_sample :
  same_structure Samples.spec_top Samples.parsed_same ∧
  run_compare first_seen Samples.spec_top Samples.parsed_same = Some [].
Proof.
  split; [|by vm_compute].
  constructor; [reflexivity|by vm_compute| |].
  - intros k.
    change (k ∈ [Some "u1"; Some "u2"] ↔ k ∈ [Some "u2"; Some "u1"]).
    rewrite !elem_of_cons. tauto.
  - intros k sc pc [Hs <-]%children_map_Some [Hp Hk]%children_map_Some.
    change (sc ∈ [Samples.leaf "A" "u1" ["p"]; Samples.leaf "B" "u2" []])
      in Hs.
    change (pc ∈ [Samples.leaf "B" "u2" []; Samples.leaf "A" "u1" ["p "]])
      in Hp.
    rewrite !elem_of_cons in Hs, Hp.
    destruct Hs as [->|[->|Hs]]; [| |by apply elem_of_nil in Hs];
      (destruct Hp as [->|[->|Hp]]; [| |by apply elem_of_nil in Hp]);
      try discriminate Hk;
      apply same_structure_leaf; by vm_compute.
Qed.

(** A key of the visiting order is visited once. *)
Lemma set_order_split set_order a b k :
  set_order_ok set_order → k ∈ a ∨ k ∈ b →
  ∃ ks1 ks2, set_order a b = ks1 ++ k :: ks2 ∧ (k ∉ ks1) ∧ (k ∉ ks2).
Proof.
  intros Hord Hk. destruct (Hord a b) as [Hnd Hin].
  apply Hin, list_elem_of_split in Hk as (ks1 & ks2 & Heq).
  exists ks1, ks2. split; [done|]. rewrite Heq in Hnd.
  apply NoDup_app in Hnd as (_ & Hl & Hr%NoDup_cons). split; [|tauto].
  intros H1. apply (Hl _ H1). by left.
Qed.

(** The report of a call, around the record of one key whose loop step
    appends the single record [r]. *)
Lemma find_arch_diffs_around_key set_order fuel s p pf diffs k r :
  set_order_ok set_order → height s ≤ S fuel →
  k ∈ child_keys (get_list (Instances s)) ∨
    k ∈ child_keys (get_list (Instances p)) →
  (∀ d, loop_body (find_arch_diffs set_order fuel)
          (children_map (get_list (Instances s)))
          (children_map (get_list (Instances p)))
          (current_file s p) k d = Some (d ++ [r])) →
  ∃ ks1 ks2 before after,
    set_order (child_keys (get_list (Instances s)))
              (child_keys (get_list (Instances p))) = ks1 ++ k :: ks2 ∧
    (k ∉ ks1) ∧ (k ∉ ks2) ∧
    for_each (loop_body (find_arch_diffs set_order fuel)
                (children_map (get_list (Instances s)))
                (children_map (get_list (Instances p)))
                (current_file s p)) ks1 [] = Some before ∧
    for_each (loop_body (find_arch_diffs set_order fuel)
                (children_map (get_list (Instances s)))
                (children_map (get_list (Instances p)))
                (current_file s p)) ks2 [] = Some after ∧
    find_arch_diffs set_order (S fuel) s p pf diffs =
      Some (diffs ++ pair_records s p pf ++ before ++ [r] ++ after).
Proof.
  intros Hord Hh Hk Hstep.
  destruct (set_order_split _ _ _ k Hord Hk) as (ks1 & ks2 & Heq & H1 & H2).
  destruct (find_arch_diffs_total set_order Hord (S fuel) s p pf diffs Hh)
    as [res Hres].
  rewrite Hres. rewrite find_arch_diffs_unfold, Heq in Hres.
  apply for_each_split in Hres as (b & e & a & Hb & He & Ha & ->);
    [|apply loop_body_appends; intros; apply find_arch_diffs_appends].
  rewrite Hstep in He. injection He as <-.
  exists ks1, ks2, b, a. by rewrite <- !app_assoc.
Qed.

(** C3. A key found among the children of the expected node only is
    visited once, and its visit appends one record, whose actual side
    is the missing marker; a key found among the children of the
    actual node only is visited once, and its visit appends one
    record, whose expected side is the missing marker. In both cases
    the visit makes no recursive call, and the record does not depend
    on the children of the instance. *)
Theorem missing_instance_one_record set_order fuel s p pf diffs k :
  set_order_ok set_order → height s ≤ S fuel →
  let sm := children_map (get_list (Instances s)) in
  let pm := children_map (get_list (Instances p)) in
  let cf := current_file s p in
  let body := loop_body (find_arch_diffs set_order fuel) sm pm cf in
  let keys := set_order (child_keys (get_list (Instances s)))
                        (child_keys (get_list (Instances p))) in
  (k ∈ child_keys (get_list (Instances s)) →
   k ∉ child_keys (get_list (Instances p)) →
   ∃ sc ks1 ks2 before after,
     sm !! k = Some sc ∧
     keys = ks1 ++ k :: ks2 ∧ (k ∉ ks1) ∧ (k ∉ ks2) ∧
     for_each body ks1 [] = Some before ∧
     for_each body ks2 [] = Some after ∧
     find_arch_diffs set_order (S fuel) s p pf diffs =
       Some (diffs ++ pair_records s p pf ++
             before ++ [missing_in_parsed cf k sc] ++ after) ∧
     Parsed (missing_in_parsed cf k sc) = Missing ∧
     (∀ rec d, loop_body rec sm pm cf k d =
               Some (d ++ [missing_in_parsed cf k sc])) ∧
     (∀ cs, missing_in_parsed cf k (set_Instances sc cs) =
            missing_in_parsed cf k sc)) ∧
  (k ∉ child_keys (get_list (Instances s)) →
   k ∈ child_keys (get_list (Instances p)) →
   ∃ pc ks1 ks2 before after,
     pm !! k = Some pc ∧
     keys = ks1 ++ k :: ks2 ∧ (k ∉ ks1) ∧ (k ∉ ks2) ∧
     for_each body ks1 [] = Some before ∧
     for_each body ks2 [] = Some after ∧
     find_arch_diffs set_order (S fuel) s p pf diffs =
       Some (diffs ++ pair_records s p pf ++
             before ++ [missing_in_spec cf k pc] ++ after) ∧
     SPEC (missing_in_spec cf k pc) = Missing ∧
     (∀ rec d, loop_body rec sm pm cf k d =
               Some (d ++ [missing_in_spec cf k pc])) ∧
     (∀ cs, missing_in_spec cf k (set_Instances pc cs) =
            missing_in_spec cf k pc)).
Proof.
  intros Hord Hh sm pm cf body keys. split.
  - intros Hs Hp.
    pose proof Hs as [sc Hsc]%children_map_is_Some.
    pose proof Hp as Hpn%children_map_None.
    assert (∀ rec d, loop_body rec sm pm cf k d =
                     Some (d ++ [missing_in_parsed cf k sc])) as Hstep.
    { intros rec d. unfold loop_body, sm, pm. by rewrite Hsc, Hpn. }
    destruct (find_arch_diffs_around_key set_order fuel s p pf diffs k
                (missing_in_parsed cf k sc) Hord Hh (or_introl Hs))
      as (ks1 & ks2 & b & a & ? & ? & ? & ? & ? & ?); [intros; apply Hstep|].
    exists sc, ks1, ks2, b, a. repeat split; done.
  - intros Hs Hp.
    pose proof Hp as [pc Hpc]%children_map_is_Some.
    pose proof Hs as Hsn%children_map_None.
    assert (∀ rec d, loop_body rec sm pm cf k d =
                     Some (d ++ [missing_in_spec cf k pc])) as Hstep.
    { intros rec d. unfold loop_body, sm, pm. by rewrite Hpc, Hsn. }
    destruct (find_arch_diffs_around_key set_order fuel s p pf diffs k
                (missing_in_spec cf k pc) Hord Hh (or_intror Hp))
      as (ks1 & ks2 & b & a & ? & ? & ? & ? & ? & ?); [intros; apply Hstep|].
    exists pc, ks1, ks2, b, a. repeat split; done.
Qed.

Lemma missing_instance_one_record_witness :
  set_order_ok first_seen ∧ height Samples.spec_top ≤ 2 ∧
  ∃ sc ks1 ks2 before after,
    children_map (get_list (Instances Samples.spec_top)) !! Some "u2"
      = Some sc ∧
    first_seen (child_keys (get_list (Instances Samples.spec_top)))
               (child_keys (get_list (Instances Samples.parsed_other)))
      = ks1 ++ Some "u2" :: ks2 ∧
    find_arch_diffs first_seen 2 Samples.spec_top Samples.parsed_other None []
      = Some ([] ++ pair_records Samples.spec_top Samples.parsed_other None ++
              before ++
              [missing_in_parsed
                 (current_file Samples.spec_top Samples.parsed_other)
                 (Some "u2") sc] ++ after).
Proof.
  split; [apply first_seen_ok|]. split; [vm_compute; lia|].
  destruct (proj1 (missing_instance_one_record first_seen 1 Samples.spec_top
                     Samples.parsed_other None [] (Some "u2") first_seen_ok
                     ltac:(vm_compute; lia)))
    as (sc & ks1 & ks2 & b & a & H1 & H2 & _ & _ & _ & _ & H3 & _).
  - compute_done.
  - compute_done.
  - by exists sc, ks1, ks2, b, a.
Defined.

(** C4, as the code has it. A record of the pair is filed under the
    file of the actual node if that is not empty, else under the
    context received from the caller if that is not empty, else under
    "Top Level". The context handed to a pair of children, which is
    also the file of a record for an instance of the expected tree
    only, is the file of the actual node if that is not empty, else
    the module name of the actual node followed by ".v", else that of
    the expected node followed by ".v", else "Unknown.v". A record for
    an instance of the actual tree only is filed under the [File_path]
    of the child when that is not empty, and under the context when
    the child has no [File_path] field. *)
Theorem file_tagging_rule set_order fuel s p pf diffs :
  (∀ r, r ∈ pair_records s p pf →
     (get_str (File_path p) ≠ "" → file r = get_str (File_path p)) ∧
     (get_str (File_path p) = "" →
        ∀ q, pf = Some q → q ≠ "" → file r = q) ∧
     (get_str (File_path p) = "" →
        pf = None ∨ pf = Some "" → file r = "Top Level")) ∧
  find_arch_diffs set_order (S fuel) s p pf diffs =
    for_each
      (λ k d,
         match children_map (get_list (Instances s)) !! k,
               children_map (get_list (Instances p)) !! k with
         | Some sc, Some pc =>
             find_arch_diffs set_order fuel sc pc (Some (current_file s p)) d
         | Some sc, None =>
             Some (d ++ [missing_in_parsed (current_file s p) k sc])
         | None, Some pc =>
             Some (d ++ [missing_in_spec (current_file s p) k pc])
         | None, None => None
         end)
      (set_order (child_keys (get_list (Instances s)))
                 (child_keys (get_list (Instances p))))
      (diffs ++ pair_records s p pf) ∧
  (get_str (File_path p) ≠ "" → current_file s p = get_str (File_path p)) ∧
  (get_str (File_path p) = "" → get_str (Module_name p) ≠ "" →
     current_file s p = get_str (Module_name p) +:+ ".v") ∧
  (get_str (File_path p) = "" → get_str (Module_name p) = "" →
     get_str (Module_name s) ≠ "" →
     current_file s p = get_str (Module_name s) +:+ ".v") ∧
  (get_str (File_path p) = "" → get_str (Module_name p) = "" →
     get_str (Module_name s) = "" → current_file s p = "Unknown.v") ∧
  (∀ cf k sc, file (missing_in_parsed cf k sc) = cf) ∧
  (∀ cf k pc f, File_path pc = Some f → f ≠ "" →
     file (missing_in_spec cf k pc) = f) ∧
  (∀ cf k pc, File_path pc = None → file (missing_in_spec cf k pc) = cf).
Proof.
  split; [|split; [apply find_arch_diffs_unfold|]].
  - intros r. unfold pair_records.
    destruct (node_mismatch s p); [|by intros ?%elem_of_nil].
    intros ->%list_elem_of_singleton. simpl. unfold current_node_file.
    split; [|split].
    + intros H%truthy_true. by rewrite H.
    + intros H%truthy_false q -> Hq%truthy_true. by rewrite H, Hq.
    + intros H%truthy_false [->| ->]; by rewrite H.
  - unfold current_file. repeat split.
    + intros H%truthy_true. by rewrite H.
    + intros H1%truthy_false H2%truthy_true. by rewrite H1, H2.
    + intros H1%truthy_false H2%truthy_false H3%truthy_true.
      by rewrite H1, H2, H3.
    + intros H1%truthy_false H2%truthy_false H3%truthy_false.
      by rewrite H1, H2, H3.
    + intros cf k pc f Hf _. simpl. by rewrite Hf.
    + intros cf k pc Hf. simpl. by rewrite Hf.
Qed.

Lemma file_tagging_rule_witness :
  pair_record (Samples.leaf "A" "u1" ["p"]) Samples.actual_u1 None ∈
    pair_records (Samples.leaf "A" "u1" ["p"]) Samples.actual_u1 None ∧
  get_str (File_path Samples.actual_u1) = "" ∧
  file (pair_record (Samples.leaf "A" "u1" ["p"]) Samples.actual_u1 None)
    = "Top Level".
Proof.
  assert (pair_record (Samples.leaf "A" "u1" ["p"]) Samples.actual_u1 None ∈
            pair_records (Samples.leaf "A" "u1" ["p"]) Samples.actual_u1 None)
    as Hr by (by left).
  split; [exact Hr|]. split; [reflexivity|].
  destruct (proj1 (file_tagging_rule first_seen 1 (Samples.leaf "A" "u1" ["p"])
                     Samples.actual_u1 None []) _ Hr) as (_ & _ & H).
  apply H; [reflexivity|by left].
Defined.

(** The rule of the document fails on the code: below a root without
    a file, the record of the pair [u1] is filed under "top.v", where
    the rule gives "Top Level"; and the record of [u3], an instance of
    the actual tree only whose [File_path] is the empty string, is
    filed under the empty string, where the rule gives the file of the
    parent. *)
Lemma file_tagging_counterexample :
  run_compare first_seen Samples.spec_small Samples.parsed_small =
    Some [pair_record (Samples.leaf "A" "u1" ["p"]) Samples.actual_u1
            (Some "top.v");
          missing_in_spec "top.v" (Some "u3") Samples.actual_u3] ∧
  file (pair_record (Samples.leaf "A" "u1" ["p"]) Samples.actual_u1
          (Some "top.v")) = "top.v" ∧
  doc_resolved_file Samples.actual_u1
    (Some (doc_resolved_file Samples.parsed_small None)) = "Top Level" ∧
  file (missing_in_spec "top.v" (Some "u3") Samples.actual_u3) = "" ∧
  doc_resolved_file Samples.actual_u3
    (Some (doc_resolved_file Samples.parsed_small None)) = "Top Level" ∧
  doc_resolved_file Samples.actual_u3
    (Some (current_file Samples.spec_small Samples.parsed_small)) = "top.v".
Proof. by vm_compute. Qed.

(** *** Missing fields *)

Lemma height_with_defaults n : height (with_defaults n) = height n.
Proof. by destruct n as [? ? ? ? [l|]]. Qed.

Lemma find_arch_diffs_with_defaults set_order fuel s p pf diffs :
  find_arch_diffs set_order fuel (with_defaults s) (with_defaults p) pf diffs =
  find_arch_diffs set_order fuel s p pf diffs.
Proof. destruct fuel; [done|]. by destruct s, p. Qed.

(** C7, as the code has it. No pair of trees makes the comparator
    fail, whichever fields are absent: it returns a report, the same
    as for the two roots with the absent fields written out (module
    name, instance name and file as the empty string, ports and
    instances as the empty list), and the report of two empty objects
    is empty. *)
Theorem compare_never_fails set_order s p :
  set_order_ok set_order →
  (∃ report, run_compare set_order s p = Some report) ∧
  run_compare set_order (with_defaults s) (with_defaults p) =
    run_compare set_order s p ∧
  run_compare set_order Samples.empty_object Samples.empty_object = Some [].
Proof.
  intros Hord. split; [|split].
  - by apply (find_arch_diffs_total set_order Hord).
  - unfold run_compare.
    by rewrite height_with_defaults, find_arch_diffs_with_defaults.
  - unfold run_compare. simpl. unfold pair_records. simpl.
    apply for_each_id. intros k Hk%Hord. simpl in Hk.
    destruct Hk as [Hk|Hk]; by apply elem_of_nil in Hk.
Qed.

Lemma compare_never_fails_witness :
  set_order_ok first_seen ∧
  ∃ report,
    run_compare first_seen Samples.empty_object Samples.parsed_small
      = Some report.
Proof.
  split; [apply first_seen_ok|].
  exact (proj1 (compare_never_fails first_seen Samples.empty_object
                  Samples.parsed_small first_seen_ok)).
Defined.

(** A tree whose required fields are all absent is compared without
    failure. *)
Lemma compare_error_counterexample :
  missing_required_field Samples.empty_object ∧
  run_compare first_seen Samples.empty_object
      (Node (Some "top") None None None None) =
    Some [pair_record Samples.empty_object
            (Node (Some "top") None None None None) None].
Proof. split; [by left|by vm_compute]. Qed.

End ComparatorProofs.

(** ** The extractor *)

Section ForEachAny.
Context {A S : Type}.
Implicit Types (body : A → S → option S).

Lemma for_each_Some_elem body l s r x :
  for_each body l s = Some r → x ∈ l → ∃ s', is_Some (body x s').
Proof.
  revert s. induction l as [|y l IH]; intros s Hr Hx; [by apply elem_of_nil in Hx|].
  simpl in Hr. destruct (body y s) as [s1|] eqn:Hy; [|done].
  apply elem_of_cons in Hx as [->|Hx]; [exists s; by rewrite Hy|].
  by eapply IH.
Qed.

Lemma for_each_invariant (I : S → Prop) body l s :
  I s →
  (∀ x s, x ∈ l → I s → ∃ s', body x s = Some s' ∧ I s') →
  ∃ s', for_each body l s = Some s' ∧ I s'.
Proof.
  revert s. induction l as [|y l IH]; intros s Hs Hb; simpl; [by exists s|].
  destruct (Hb y s) as (s1 & -> & Hs1); [by left|done|].
  apply IH; [done|]. intros x s2 Hx. apply Hb. by right.
Qed.

End ForEachAny.

(** A walk that returns on a module only after it has returned, within
    a smaller bound, on every module below it, does not return on a
    module that is below itself. *)
Section Descent.
Context {N : Type} (R : relation N) (returns : nat → N → Prop).
Context (Hstep : ∀ fuel a b,
  returns fuel a → R a b → ∃ fuel', fuel' < fuel ∧ returns fuel' b).

Lemma descent_rtc fuel a b :
  returns fuel a → rtc R a b → ∃ fuel', fuel' ≤ fuel ∧ returns fuel' b.
Proof.
  intros Hr Hab. revert fuel Hr.
  induction Hab as [a|a b c Hab _ IH]; intros fuel Hr; [by exists fuel|].
  destruct (Hstep _ _ _ Hr Hab) as (f1 & Hlt & Hr1).
  destruct (IH _ Hr1) as (f2 & Hle & Hr2). exists f2. split; [lia|done].
Qed.

Lemma descent_tc fuel a b :
  returns fuel a → tc R a b → ∃ fuel', fuel' < fuel ∧ returns fuel' b.
Proof.
  intros Hr Hab. revert fuel Hr.
  induction Hab as [a b Hab|a b c Hab _ IH]; intros fuel Hr; [by eapply Hstep|].
  destruct (Hstep _ _ _ Hr Hab) as (f1 & Hlt & Hr1).
  destruct (IH _ Hr1) as (f2 & Hlt2 & Hr2). exists f2. split; [lia|done].
Qed.

Lemma no_return_on_cycle a : tc R a a → ∀ fuel, ¬ returns fuel a.
Proof.
  intros Hcyc fuel. induction (lt_wf fuel) as [fuel _ IH]. intros Hr.
  destruct (descent_tc _ _ _ Hr Hcyc) as (f1 & Hlt & Hr1). by apply (IH f1).
Qed.

Lemma no_return_above_cycle top a :
  rtc R top a → tc R a a → ∀ fuel, ¬ returns fuel top.
Proof.
  intros Hpath Hcyc fuel Hr.
  destruct (descent_rtc _ _ _ Hr Hpath) as (f1 & _ & Hr1).
  by apply (no_return_on_cycle a Hcyc f1).
Qed.

End Descent.

Module ExtractorProofs.
Import Extractor.

(** *** Walks without a visited set *)

Lemma print_module_hierarchy_descends fuel hd a b :
  (∃ level indent out,
      is_Some (print_module_hierarchy fuel hd a level indent out)) →
  instantiates hd a b →
  ∃ fuel', fuel' < fuel ∧
    ∃ level indent out,
      is_Some (print_module_hierarchy fuel' hd b level indent out).
Proof.
  intros (level & indent & out & [r Hr]) (info & sub & Ha & Hsub & <- & [ib Hb]).
  destruct fuel as [|fuel]; [done|]. exists fuel. split; [lia|].
  simpl in Hr. rewrite Ha in Hr.
  destruct (for_each_Some_elem _ _ _ _ sub Hr Hsub) as (out' & Hcall).
  simpl in Hcall. rewrite Hb in Hcall. eauto.
Qed.

Lemma build_structure_descends fuel hd a b :
  (∃ inst conns, is_Some (build_structure fuel hd a inst conns)) →
  instantiates hd a b →
  ∃ fuel', fuel' < fuel ∧
    ∃ inst conns, is_Some (build_structure fuel' hd b inst conns).
Proof.
  intros (inst & conns & [r Hr]) (info & sub & Ha & Hsub & <- & _).
  destruct fuel as [|fuel]; [done|]. exists fuel. split; [lia|].
  simpl in Hr. rewrite Ha in Hr. simpl in Hr.
  destruct (mapM _ (submodules info)) as [children|] eqn:Hch; [|done].
  apply mapM_Some in Hch.
  apply list_elem_of_lookup in Hsub as [i Hi].
  destruct (Forall2_lookup_l _ _ _ _ _ Hch Hi) as (c & _ & Hc).
  eauto.
Qed.

(** C5, on the code. When a module has, directly or through other
    modules, an instance of itself, and the top module is that module
    or reaches it, neither [print_module_hierarchy] nor
    [build_structure] returns, whatever bound is put on the depth of
    the nested calls: the walk is not cut at the repeated module. *)
Theorem walk_of_cycle_never_returns hd top a :
  rtc (instantiates hd) top a → tc (instantiates hd) a a →
  ∀ fuel,
    (∀ level indent out,
        print_module_hierarchy fuel hd top level indent out = None) ∧
    (∀ inst conns, build_structure fuel hd top inst conns = None).
Proof.
  intros Hpath Hcyc fuel. split.
  - intros level indent out. apply eq_None_not_Some. intros Hr.
    eapply (no_return_above_cycle (instantiates hd)
              (λ f m, ∃ level indent out,
                  is_Some (print_module_hierarchy f hd m level indent out))
              (λ f a b, print_module_hierarchy_descends f hd a b)
              top a Hpath Hcyc fuel); eauto.
  - intros inst conns. apply eq_None_not_Some. intros Hr.
    eapply (no_return_above_cycle (instantiates hd)
              (λ f m, ∃ inst conns,
                  is_Some (build_structure f hd m inst conns))
              (λ f a b, build_structure_descends f hd a b)
              top a Hpath Hcyc fuel); eauto.
Qed.

Lemma walk_of_cycle_never_returns_witness :
  rtc (instantiates self_instance) "A" "A" ∧
  tc (instantiates self_instance) "A" "A" ∧
  ∀ fuel,
    print_module_hierarchy fuel self_instance "A" 0 "" [] = None ∧
    build_structure fuel self_instance "A" "Top" None = None.
Proof.
  assert (instantiates self_instance "A" "A") as Hi.
  { eexists _, (Submodule "u" "A"). split; [reflexivity|].
    split; [by left|]. split; [reflexivity|]. by eexists. }
  split; [apply rtc_refl|]. split; [by apply tc_once|].
  intros fuel.
  destruct (walk_of_cycle_never_returns self_instance "A" "A"
              (rtc_refl _ _) (tc_once _ _ _ Hi) fuel) as [H1 H2].
  split; [apply H1|apply H2].
Defined.

(** The same through two modules: [A] holds a [B], which holds an
    [A]. *)
Example build_structure_mutual_instance fuel :
  build_structure fuel mutual_instance "A" "Top" None = None.
Proof.
  assert (instantiates mutual_instance "A" "B") as Hab.
  { eexists _, (Submodule "b0" "B"). split; [reflexivity|].
    split; [by left|]. split; [reflexivity|]. by eexists. }
  assert (instantiates mutual_instance "B" "A") as Hba.
  { eexists _, (Submodule "a0" "A"). split; [reflexivity|].
    split; [by left|]. split; [reflexivity|]. by eexists. }
  apply eq_None_not_Some. intros Hr.
  eapply (no_return_on_cycle (instantiates mutual_instance)
            (λ f m, ∃ inst conns,
                is_Some (build_structure f mutual_instance m inst conns))
            (λ f a b, build_structure_descends f mutual_instance a b)
            "A" (tc_l _ _ _ _ Hab (tc_once _ _ _ Hba)) fuel); eauto.
Qed.

(** *** The walk with a visited set *)

Lemma get_Some_keys {V} k (d : OrderedDict.t V) v :
  OrderedDict.get k d = Some v → k ∈ OrderedDict.keys d.
Proof.
  induction d as [|[k' v'] d IH]; simpl; [done|].
  case_decide as Hk; [intros _; subst; by left|]. intros ?. right. by apply IH.
Qed.

Lemma add_module_nodes_returns hd fuel m parent st :
  size (list_to_set (C := gset string) (OrderedDict.keys (hierarchy hd)) ∖ st.1)
    < fuel →
  ∃ st', add_module_nodes fuel hd m parent st = Some st' ∧ st.1 ⊆ st'.1.
Proof.
  set (K := list_to_set (C := gset string) (OrderedDict.keys (hierarchy hd))).
  revert m parent st. induction fuel as [|fuel IH]; intros m parent st Hsz; [lia|].
  simpl. case_bool_decide as Hvis; [by exists st|].
  destruct (OrderedDict.get m (hierarchy hd)) as [info|] eqn:Hget.
  - assert (m ∈ K) as HmK.
    { apply elem_of_list_to_set. by eapply get_Some_keys. }
    assert (size (K ∖ ({[m]} ∪ st.1)) < size (K ∖ st.1)) as Hlt.
    { apply subset_size. set_solver. }
    match goal with |- ∃ st', for_each ?body ?l ?s0 = _ ∧ _ =>
      destruct (for_each_invariant (λ s, {[m]} ∪ st.1 ⊆ s.1) body l s0)
        as (st' & Hst' & Hinv) end.
    + done.
    + intros sub s1 _ Hs1.
      match goal with |- ∃ s', add_module_nodes fuel hd ?t ?par ?s2 = _ ∧ _ =>
        destruct (IH t par s2) as (s' & Hs' & Hsub) end.
      * simpl. assert (size (K ∖ s1.1) ≤ size (K ∖ ({[m]} ∪ st.1))); [|lia].
        apply subseteq_size. set_solver.
      * exists s'. split; [done|]. simpl in Hsub. set_solver.
    + exists st'. split; [done|]. simpl in Hinv. set_solver.
  - eexists. split; [done|]. simpl. set_solver.
Qed.

(** With a visited set the walk returns, on every design. *)
Lemma add_module_nodes_terminates hd top :
  ∃ st,
    add_module_nodes
      (S (size (list_to_set (C := gset string)
                  (OrderedDict.keys (hierarchy hd)))))
      hd top None (∅, []) = Some st.
Proof.
  edestruct (add_module_nodes_returns hd) as (st & Hst & _); [|by eexists].
  simpl. rewrite difference_empty_L. lia.
Qed.

Example add_module_nodes_self_instance :
  fst <$> add_module_nodes 2 self_instance "A" None (∅, []) = Some {["A"]}.
Proof. by vm_compute. Qed.

(** *** The dictionaries of the parser *)

Lemma keys_set {V} k (v : V) d x :
  x ∈ OrderedDict.keys (OrderedDict.set k v d) ↔
  x = k ∨ x ∈ OrderedDict.keys d.
Proof.
  unfold OrderedDict.keys.
  induction d as [|[k' v'] d IH]; csimpl.
  - rewrite list_elem_of_singleton. set_solver.
  - case_decide as Hk; subst; csimpl; [set_solver|].
    rewrite !elem_of_cons, IH. tauto.
Qed.

Lemma head_keys_set {V} k (v : V) d :
  head (OrderedDict.keys (OrderedDict.set k v d)) =
  match head (OrderedDict.keys d) with Some k' => Some k' | None => Some k end.
Proof.
  destruct d as [|[k' v'] d]; csimpl; [done|]. by case_decide; subst.
Qed.

Lemma keys_update {V} k (f : V → V) d :
  OrderedDict.keys (OrderedDict.update k f d) = OrderedDict.keys d.
Proof.
  unfold OrderedDict.keys.
  induction d as [|[k' v'] d IH]; csimpl; [done|].
  case_decide; csimpl; by rewrite ?IH.
Qed.

Lemma instantiated_cons k info (h : OrderedDict.t module_info) :
  instantiated_modules ((k, info) :: h) =
  (sub_type <$> submodules info) ++ instantiated_modules h.
Proof. done. Qed.

Lemma instantiated_set k info h x :
  submodules info = [] →
  x ∈ instantiated_modules (OrderedDict.set k info h) →
  x ∈ instantiated_modules h.
Proof.
  intros Hinfo. induction h as [|[k' v'] h IH]; csimpl.
  - rewrite instantiated_cons, Hinfo. csimpl. done.
  - case_decide; rewrite !instantiated_cons, ?Hinfo, !elem_of_app; csimpl.
    + intros [H0|H0]; [by apply elem_of_nil in H0|by right].
    + intros [?|?]; [by left|right; by apply IH].
Qed.

Lemma instantiated_add_instance name h i x :
  x ∈ instantiated_modules (add_instance name h i) ↔
  x ∈ instantiated_modules h ∨
  (x = inst_defName i ∧ name ∈ OrderedDict.keys h).
Proof.
  unfold add_instance, OrderedDict.keys.
  induction h as [|[k' v'] h IH]; csimpl.
  - split; [by left|]. intros [?|[_ H0]]; [done|by apply elem_of_nil in H0].
  - case_decide as Hk; rewrite !instantiated_cons, !elem_of_app; csimpl.
    + subst. rewrite fmap_app, elem_of_app. csimpl.
      rewrite list_elem_of_singleton, elem_of_cons. naive_solver.
    + rewrite IH, elem_of_cons. naive_solver.
Qed.

Lemma keys_add_instance name h i :
  OrderedDict.keys (add_instance name h i) = OrderedDict.keys h.
Proof. apply keys_update. Qed.

Lemma keys_add_instances h m :
  OrderedDict.keys (add_instances h m) = OrderedDict.keys h.
Proof.
  unfold add_instances. generalize (mod_instances m). intros l. revert h.
  induction l as [|i l IH]; intros h; csimpl; [done|].
  by rewrite IH, keys_add_instance.
Qed.

Lemma instantiated_add_instances h m x :
  x ∈ instantiated_modules (add_instances h m) ↔
  x ∈ instantiated_modules h ∨
  (x ∈ inst_defName <$> mod_instances m ∧ mod_name m ∈ OrderedDict.keys h).
Proof.
  unfold add_instances. generalize (mod_instances m). intros l. revert h.
  induction l as [|i l IH]; intros h; csimpl.
  - split; [by left|]. intros [?|[H0 _]]; [done|by apply elem_of_nil in H0].
  - rewrite IH, instantiated_add_instance, keys_add_instance, elem_of_cons.
    naive_solver.
Qed.

Lemma keys_third_loop h mods :
  OrderedDict.keys (foldl add_instances h mods) = OrderedDict.keys h.
Proof.
  revert h. induction mods as [|m mods IH]; intros h; csimpl; [done|].
  by rewrite IH, keys_add_instances.
Qed.

Lemma instantiated_third_loop h mods x :
  x ∈ instantiated_modules (foldl add_instances h mods) ↔
  x ∈ instantiated_modules h ∨
  ∃ m, m ∈ mods ∧ x ∈ inst_defName <$> mod_instances m ∧
       mod_name m ∈ OrderedDict.keys h.
Proof.
  revert h. induction mods as [|m mods IH]; intros h; csimpl.
  - split; [by left|]. intros [?|(m & H0 & _)]; [done|by apply elem_of_nil in H0].
  - rewrite IH, instantiated_add_instances, keys_add_instances.
    split.
    + intros [[?|[? ?]]|(m' & ? & ? & ?)]; [by left|right..].
      * exists m. split; [by left|done].
      * exists m'. split; [by right|done].
    + intros [?|(m' & [->|?]%elem_of_cons & ? & ?)];
        [by left; left|by left; right|right; by exists m'].
Qed.

Lemma keys_second_loop tn fm acc mods x :
  x ∈ OrderedDict.keys (foldl (add_module tn fm) acc mods).1 ↔
  x ∈ OrderedDict.keys acc.1 ∨ x ∈ mod_name <$> mods.
Proof.
  revert acc. induction mods as [|m mods IH]; intros acc; csimpl.
  - split; [by left|]. intros [?|H0]; [done|by apply elem_of_nil in H0].
  - rewrite IH. csimpl. rewrite keys_set, elem_of_cons. tauto.
Qed.

Lemma head_keys_second_loop tn fm acc mods :
  head (OrderedDict.keys (foldl (add_module tn fm) acc mods).1) =
  match head (OrderedDict.keys acc.1) with
  | Some k => Some k
  | None => mod_name <$> head mods
  end.
Proof.
  revert acc. induction mods as [|m mods IH]; intros acc; csimpl.
  - by destruct (head _).
  - rewrite IH. unfold add_module at 1. cbn [fst].
    rewrite head_keys_set. by destruct (head (OrderedDict.keys acc.1)).
Qed.

Lemma instantiated_second_loop tn fm acc mods x :
  x ∈ instantiated_modules (foldl (add_module tn fm) acc mods).1 →
  x ∈ instantiated_modules acc.1.
Proof.
  revert acc. induction mods as [|m mods IH]; intros acc; csimpl; [done|].
  intros H0%IH. csimpl in H0. by apply instantiated_set in H0.
Qed.

Section Parse.
Context (list_of_set : list string → list string).

Lemma parse_keys doc x :
  x ∈ OrderedDict.keys (hierarchy (parse_xml_module_hierarchy list_of_set doc))
  ↔ x ∈ module_names doc.
Proof.
  csimpl. rewrite keys_third_loop, keys_second_loop. csimpl.
  split; [|by right]. intros [H0|?]; [by apply elem_of_nil in H0|done].
Qed.

Lemma parse_top_modules doc :
  top_modules (parse_xml_module_hierarchy list_of_set doc) =
  list_of_set (flagged doc).
Proof. done. Qed.

Lemma parse_head_keys doc :
  head (OrderedDict.keys
          (hierarchy (parse_xml_module_hierarchy list_of_set doc))) =
  mod_name <$> head (doc_modules doc).
Proof. csimpl. by rewrite keys_third_loop, head_keys_second_loop. Qed.

Lemma parse_instantiated doc x :
  x ∈ instantiated_modules
        (hierarchy (parse_xml_module_hierarchy list_of_set doc))
  ↔ x ∈ def_names doc.
Proof.
  csimpl. rewrite instantiated_third_loop. unfold def_names.
  rewrite list_elem_of_bind. split.
  - intros [H0%instantiated_second_loop|(m & ? & ? & _)]; [|by exists m].
    by apply elem_of_nil in H0.
  - intros (m & ? & ?). right. exists m. split; [done|]. split; [done|].
    apply keys_second_loop. right. by apply list_elem_of_fmap_2.
Qed.

End Parse.

(** *** The choice of the top module *)

Lemma in_order_ok : list_of_set_ok in_order.
Proof.
  intros l. unfold in_order. split; [apply NoDup_remove_dups|].
  intros x. apply elem_of_remove_dups.
Qed.

Lemma nil_iff_no_elem {A} (l : list A) : l = [] ↔ ∀ x, x ∉ l.
Proof.
  split; [intros -> x; apply not_elem_of_nil|].
  destruct l as [|y l]; [done|]. intros H0. destruct (H0 y). by left.
Qed.

Lemma head_is_Some_elem {A} (l : list A) :
  l ≠ [] → ∃ x, head l = Some x ∧ x ∈ l.
Proof. destruct l as [|y l]; [done|]. exists y. split; [done|by left]. Qed.

Lemma in_descending_order_ok : list_of_set_ok in_descending_order.
Proof.
  intros l. unfold in_descending_order, sorted. split.
  - rewrite reverse_Permutation, merge_sort_Permutation.
    apply NoDup_remove_dups.
  - intros x.
    by rewrite elem_of_reverse, merge_sort_Permutation, elem_of_remove_dups.
Qed.

Section Select.
Context (list_of_set : list string → list string).
Context (Hset : list_of_set_ok list_of_set).
Context (str_lower : string → string).

Lemma list_of_set_nil_iff l : list_of_set l = [] ↔ l = [].
Proof.
  rewrite !nil_iff_no_elem. split; intros H0 x Hx; apply (H0 x); by apply Hset.
Qed.

(** The set [all_modules - instantiated_modules] of the code holds the
    never instantiated modules of the document. *)
Lemma roots_of_code doc x :
  x ∈ list_of_set
        (filter (λ m, m ∉ instantiated_modules
                        (hierarchy (parse_xml_module_hierarchy list_of_set doc)))
           (list_of_set
              (OrderedDict.keys
                 (hierarchy (parse_xml_module_hierarchy list_of_set doc)))))
  ↔ x ∈ never_instantiated doc.
Proof.
  unfold never_instantiated.
  rewrite (proj2 (Hset _) x), !list_elem_of_filter, (proj2 (Hset _) x).
  by rewrite parse_keys, parse_instantiated.
Qed.

Lemma select_flagged_eq base_name doc :
  flagged doc ≠ [] →
  select_top_module list_of_set str_lower base_name
    (parse_xml_module_hierarchy list_of_set doc) =
  head (list_of_set (flagged doc)).
Proof.
  intros Hf. unfold select_top_module.
  rewrite parse_top_modules.
  by rewrite bool_decide_eq_false_2 by by rewrite list_of_set_nil_iff.
Qed.

Lemma select_flagged base_name doc :
  flagged doc ≠ [] →
  ∃ m, select_top_module list_of_set str_lower base_name
         (parse_xml_module_hierarchy list_of_set doc) = Some m ∧
       m ∈ flagged doc.
Proof.
  intros Hf. rewrite select_flagged_eq by done.
  destruct (head_is_Some_elem (list_of_set (flagged doc))) as (m & Hm & Hin);
    [by rewrite list_of_set_nil_iff|].
  exists m. split; [done|]. by apply Hset.
Qed.

Lemma select_root_eq base_name doc :
  flagged doc = [] → never_instantiated doc ≠ [] →
  let hd := parse_xml_module_hierarchy list_of_set doc in
  select_top_module list_of_set str_lower base_name hd =
  head (list_of_set
          (filter (λ m, m ∉ instantiated_modules (hierarchy hd))
             (list_of_set (OrderedDict.keys (hierarchy hd))))).
Proof.
  intros Hf Hr hd. unfold select_top_module, hd.
  rewrite parse_top_modules.
  rewrite bool_decide_eq_true_2 by by rewrite list_of_set_nil_iff.
  rewrite bool_decide_eq_false_2; [done|].
  intros Hnil. apply Hr. apply nil_iff_no_elem. intros x Hx.
  apply roots_of_code in Hx. rewrite Hnil in Hx. by apply elem_of_nil in Hx.
Qed.

Lemma select_root base_name doc :
  flagged doc = [] → never_instantiated doc ≠ [] →
  ∃ m, select_top_module list_of_set str_lower base_name
         (parse_xml_module_hierarchy list_of_set doc) = Some m ∧
       m ∈ never_instantiated doc.
Proof.
  intros Hf Hr. rewrite select_root_eq by done.
  match goal with |- context [head ?l] => assert (l ≠ []) as Hne end.
  { intros Hnil. apply Hr. apply nil_iff_no_elem. intros x Hx.
    apply roots_of_code in Hx. rewrite Hnil in Hx. by apply elem_of_nil in Hx. }
  destruct (head_is_Some_elem _ Hne) as (m & Hm & Hin).
  exists m. split; [done|]. by apply roots_of_code.
Qed.

Lemma select_fallback base_name doc :
  flagged doc = [] → never_instantiated doc = [] →
  let known := OrderedDict.keys
                 (hierarchy (parse_xml_module_hierarchy list_of_set doc)) in
  select_top_module list_of_set str_lower base_name
    (parse_xml_module_hierarchy list_of_set doc) =
  if bool_decide (name_candidates str_lower base_name known = [])
  then mod_name <$> head (doc_modules doc)
  else head (name_candidates str_lower base_name known).
Proof.
  intros Hf Hr known. unfold select_top_module.
  rewrite parse_top_modules.
  rewrite bool_decide_eq_true_2 by by rewrite list_of_set_nil_iff.
  rewrite bool_decide_eq_true_2.
  - fold known. fold (name_candidates str_lower base_name known).
    case_bool_decide; [|done]. apply parse_head_keys.
  - apply nil_iff_no_elem. intros x Hx%roots_of_code. rewrite Hr in Hx.
    by apply elem_of_nil in Hx.
Qed.

End Select.

Lemma flagged_perm doc doc' :
  doc_modules doc' ≡ₚ doc_modules doc → flagged doc' ≡ₚ flagged doc.
Proof. intros Hp. unfold flagged. by rewrite Hp. Qed.

Lemma never_instantiated_perm doc doc' x :
  doc_modules doc' ≡ₚ doc_modules doc →
  x ∈ never_instantiated doc' ↔ x ∈ never_instantiated doc.
Proof.
  intros Hp. unfold never_instantiated, module_names, def_names.
  rewrite !list_elem_of_filter, !list_elem_of_bind, !list_elem_of_fmap.
  setoid_rewrite Hp. done.
Qed.

(** C6. The choice of the top module follows this precedence, for
    every order in which the Python sets are visited and whatever
    [str.lower] does. A module flagged as top is chosen if there is
    one. Else a module that is never the type of an instance is chosen
    if there is one: the file name is then not consulted, and when
    there is exactly one such module it is chosen for every ordering
    of the module list. Only when every module is instantiated
    somewhere is the first name-similarity candidate chosen, in the
    order of the modules; and when there is no candidate either, the
    first module of the document. *)
Theorem top_module_precedence list_of_set str_lower base_name doc :
  list_of_set_ok list_of_set →
  let hd := parse_xml_module_hierarchy list_of_set doc in
  let choice := select_top_module list_of_set str_lower base_name hd in
  let known := OrderedDict.keys (hierarchy hd) in
  (flagged doc ≠ [] → ∃ m, choice = Some m ∧ m ∈ flagged doc) ∧
  (flagged doc = [] → never_instantiated doc ≠ [] →
     ∃ m, choice = Some m ∧ m ∈ never_instantiated doc) ∧
  (flagged doc = [] →
     ∀ m, (∀ x, x ∈ never_instantiated doc ↔ x = m) →
     ∀ doc' base_name' str_lower',
       doc_modules doc' ≡ₚ doc_modules doc →
       select_top_module list_of_set str_lower' base_name'
         (parse_xml_module_hierarchy list_of_set doc') = Some m) ∧
  (flagged doc = [] → never_instantiated doc = [] →
     name_candidates str_lower base_name known ≠ [] →
     choice = head (name_candidates str_lower base_name known)) ∧
  (flagged doc = [] → never_instantiated doc = [] →
     name_candidates str_lower base_name known = [] →
     choice = mod_name <$> head (doc_modules doc)) ∧
  (∀ x, x ∈ known ↔ x ∈ module_names doc) ∧
  (flagged doc ≠ [] ∨ never_instantiated doc ≠ [] →
     ∀ base_name' str_lower',
       select_top_module list_of_set str_lower' base_name' hd = choice).
Proof.
  intros Hset hd choice known.
  split; [by apply select_flagged|].
  split; [by apply select_root|].
  split; [|split; [|split; [|split]]].
  - intros Hf m Hm doc' base_name' str_lower' Hp.
    destruct (select_root list_of_set Hset str_lower' base_name' doc')
      as (m' & Hsel & Hin).
    + apply Permutation_nil_r. rewrite <- Hf. symmetry. by apply flagged_perm.
    + intros Hnil. assert (m ∈ never_instantiated doc') as H0.
      { apply (never_instantiated_perm doc doc' m Hp). by apply Hm. }
      rewrite Hnil in H0. by apply elem_of_nil in H0.
    + apply (never_instantiated_perm doc doc' m' Hp), Hm in Hin. by subst.
  - intros Hf Hr Hc. unfold choice, hd.
    rewrite select_fallback by done. by rewrite bool_decide_eq_false_2.
  - intros Hf Hr Hc. unfold choice, hd.
    rewrite select_fallback by done. by rewrite bool_decide_eq_true_2.
  - intros x. by apply parse_keys.
  - intros Hfr base_name' str_lower'. unfold choice, hd.
    destruct (decide (flagged doc = [])) as [Hf|Hf].
    + destruct Hfr as [?|Hr]; [done|].
      by rewrite !(select_root_eq list_of_set Hset _ _ doc Hf Hr).
    + by rewrite !select_flagged_eq.
Qed.

Lemma top_module_precedence_witness :
  list_of_set_ok in_order ∧
  select_top_module in_order lower "Vtop"
    (parse_xml_module_hierarchy in_order
       (XmlDoc (doc_files sample_doc) (reverse (doc_modules sample_doc))))
  = Some "soc".
Proof.
  split; [apply in_order_ok|].
  destruct (top_module_precedence in_order lower "Vtop" sample_doc in_order_ok)
    as (_ & _ & H & _).
  apply H.
  - reflexivity.
  - intros x. change (never_instantiated sample_doc) with ["soc"].
    apply list_elem_of_singleton.
  - simpl. apply reverse_Permutation.
Defined.

(** With two never instantiated modules the name of the file is not
    consulted: of [X] and [top], the candidate by name for the file
    [Vtop] is [top] alone, yet [X] is chosen when the set is visited in
    one order and [top] when it is visited in the other. *)
Lemma top_module_counterexample :
  flagged two_roots_doc = [] ∧
  never_instantiated two_roots_doc = ["X"; "top"] ∧
  name_candidates lower "Vtop" (module_names two_roots_doc) = ["top"] ∧
  select_top_module in_order lower "Vtop"
    (parse_xml_module_hierarchy in_order two_roots_doc) = Some "X" ∧
  select_top_module in_descending_order lower "Vtop"
    (parse_xml_module_hierarchy in_descending_order two_roots_doc) = Some "top".
Proof. by vm_compute. Qed.

End ExtractorProofs.

(** ** The orchestrator *)

Module OrchestratorProofs.
Import Comparator ComparatorProofs Orchestrator.

Example always_fix_run :
  (main always_fix one_file).2 = Exhausted ∧
  backups_of "top.v" (log (main always_fix one_file).1) = 1 ∧
  files (main always_fix one_file).1 !! "top.v.bak"
    = Some "module top; endmodule".
Proof. by vm_compute. Qed.

Example never_fix_run :
  main never_fix one_file =
    ({| files := files one_file;
        log := [EvCmd "make xml"; EvFix "top.v"] |}, NoFileModified).
Proof. by vm_compute. Qed.

(** *** One diff *)

Lemma exists_file_true w path :
  exists_file w path = true ↔ is_Some (files w !! path).
Proof. apply bool_decide_eq_true. Qed.

Lemma exists_file_false w path :
  exists_file w path = false ↔ files w !! path = None.
Proof.
  unfold exists_file. rewrite bool_decide_eq_false. symmetry.
  apply eq_None_not_Some.
Qed.




Lemma fix_one_cases e st d : fix_one_spec e st d (fix_one e st d).
Proof.
  unfold fix_one.
  destruct (truthy (file d)) eqn:Ht; simpl; [|constructor; by left].
  apply truthy_true in Ht.
  destruct (exists_file st.1 (file d)) eqn:Hex; simpl;
    [|constructor; right; by apply exists_file_false].
  apply exists_file_true in Hex as [c Hc]. rewrite Hc. simpl.
  destruct (get_llm_fix e d c (emit (EvFix (file d)) st.1)) as [new|] eqn:Hfix;
    [|by apply (fix_failed e st d c); [|left]].
  destruct (truthy new) eqn:Hnew;
    [|apply truthy_false in Hnew; subst;
      by apply (fix_failed e st d c); [|right]].
  apply truthy_true in Hnew.
  destruct (exists_file (emit (EvFix (file d)) st.1) (file d +:+ ".bak"))
    eqn:Hbak.
  - apply exists_file_true in Hbak. simpl in Hbak.
    unfold emit. simpl. rewrite <- app_assoc. simpl.
    by apply (fix_applied_again e st d c new).
  - apply exists_file_false in Hbak. simpl in Hbak.
    unfold emit. simpl. rewrite <- !app_assoc. simpl.
    by apply (fix_applied_first e st d c new).
Qed.

(** *** An iteration without progress *)

Lemma fix_one_modified_prefix e st d :
  ∃ l, (fix_one e st d).2 = st.2 ++ l.
Proof.
  destruct (fix_one_cases e st d); simpl;
    [exists []; by rewrite app_nil_r|exists []; by rewrite app_nil_r|by eexists..].
Qed.

Lemma foldl_fix_one_none e diffs st :
  (foldl (fix_one e) st diffs).2 = [] →
  st.2 = [] ∧
  files (foldl (fix_one e) st diffs).1 = files st.1 ∧
  ∃ evs, log (foldl (fix_one e) st diffs).1 = log st.1 ++ evs ∧
         Forall (λ ev, ∃ path, ev = EvFix path) evs.
Proof.
  revert st. induction diffs as [|d diffs IH]; intros st Hnil; simpl in *.
  - split; [done|]. split; [done|]. exists []. by rewrite app_nil_r.
  - destruct (IH _ Hnil) as (Hmod & Hfiles & evs & Hlog & Hevs).
    rewrite Hfiles, Hlog.
    destruct (fix_one_cases e st d) as [?|c ? ?|c new ? ? ? ? ?|c new ? ? ? ? ?];
      simpl in *.
    + split; [done|]. split; [done|]. by exists evs.
    + split; [done|]. split; [done|]. exists (EvFix (file d) :: evs).
      rewrite <- app_assoc. split; [done|]. constructor; [by eexists|done].
    + by destruct (st.2).
    + by destruct (st.2).
Qed.

(** Diffs whose file cannot be resolved, or for which the service
    gives nothing usable, modify nothing. *)
Lemma unusable_repairs_modify_nothing e diffs st :
  st.2 = [] →
  (∀ d, d ∈ diffs →
     file d = "" ∨ files st.1 !! file d = None ∨
     ∀ c w, get_llm_fix e d c w = None ∨ get_llm_fix e d c w = Some "") →
  (foldl (fix_one e) st diffs).2 = [].
Proof.
  revert st. induction diffs as [|d diffs IH]; intros st Hst Hd; simpl; [done|].
  assert ((fix_one e st d).2 = [] ∧ files (fix_one e st d).1 = files st.1)
    as [Hmod Hfiles].
  { destruct (fix_one_cases e st d)
      as [?|c ? ?|c new Hf Hc Hfix Hnew ?|c new Hf Hc Hfix Hnew ?];
      [done|done|exfalso..];
      (destruct (Hd d) as [H0|[H0|H0]]; [by left|done|congruence|];
       destruct (H0 c (emit (EvFix (file d)) st.1)); congruence). }
  apply IH; [done|]. intros d' Hd'. rewrite Hfiles. apply Hd. by right.
Qed.

(** C8. In an iteration that reaches the repair of a non-empty list
    of diffs and modifies no file, the loop of [main] is left with the
    verdict "no file modified"; between the start of the iteration and
    the end of the run the only command is [make xml], followed by
    calls to the repair service, so [make all] is not run; and the
    files are as they were. *)
Theorem no_progress_stops_without_validation e w diffs :
  let w1 := emit (EvCmd "make xml") w in
  let st := foldl (fix_one e) (w1, []) diffs in
  step2_parse_rtl e w1 = true →
  step3_compare e w1 = Some diffs →
  diffs ≠ [] →
  st.2 = [] →
  iteration e w = (st.1, Some NoFileModified) ∧
  (∀ n, iterations e (S n) w = (st.1, NoFileModified)) ∧
  (∃ evs, log st.1 = log w ++ EvCmd "make xml" :: evs ∧
          Forall (λ ev, ∃ path, ev = EvFix path) evs ∧
          EvCmd "make all" ∉ evs) ∧
  files st.1 = files w.
Proof.
  intros w1 st Hrtl Hcmp Hne Hmod.
  assert (iteration e w = (st.1, Some NoFileModified)) as Hit.
  { unfold iteration. fold w1. rewrite Hrtl, Hcmp. simpl.
    destruct diffs as [|d diffs]; [done|]. fold st.
    by rewrite bool_decide_eq_true_2. }
  split; [done|]. split; [intros n; simpl; by rewrite Hit|].
  destruct (foldl_fix_one_none e diffs (w1, []) Hmod)
    as (_ & Hfiles & evs & Hlog & Hevs).
  split; [|done]. exists evs. split; [|split; [done|]].
  - fold st in Hlog. rewrite Hlog. simpl. by rewrite <- app_assoc.
  - intros Hin. rewrite Forall_forall in Hevs.
    by destruct (Hevs _ Hin) as [path ?].
Qed.

Lemma no_progress_stops_without_validation_witness :
  step2_parse_rtl never_fix (emit (EvCmd "make xml") one_file) = true ∧
  step3_compare never_fix (emit (EvCmd "make xml") one_file)
    = Some [Diff "top.v" Missing Missing] ∧
  [Diff "top.v" Missing Missing] ≠ [] ∧
  (foldl (fix_one never_fix) (emit (EvCmd "make xml") one_file, [])
     [Diff "top.v" Missing Missing]).2 = [] ∧
  ∀ n, (iterations never_fix (S n) one_file).2 = NoFileModified.
Proof.
  split; [reflexivity|]. split; [reflexivity|]. split; [done|].
  split; [reflexivity|]. intros n.
  destruct (no_progress_stops_without_validation never_fix one_file
              [Diff "top.v" Missing Missing]
              eq_refl eq_refl ltac:(done) eq_refl) as (_ & H & _).
  by rewrite H.
Defined.

(** *** Backups *)

































End OrchestratorProofs.

(** * Further properties *)

(** ** Loops that append *)

Section ForEachAppends.
Context {A D : Type}.
Implicit Types (body : A → list D → option (list D)).

Lemma for_each_cons_appends body x l d :
  appends body →
  for_each body (x :: l) d =
  e ← body x []; a ← for_each body l []; Some (d ++ e ++ a).
Proof.
  intros Hb. simpl. rewrite (Hb x d).
  destruct (body x []) as [e|]; simpl; [|done].
  rewrite (for_each_appends _ l (d ++ e) Hb).
  destruct (for_each body l []) as [a|]; simpl; [|done].
  by rewrite <- app_assoc.
Qed.

Lemma for_each_nil_all body l x :
  appends body → for_each body l [] = Some [] → x ∈ l → body x [] = Some [].
Proof.
  intros Hb Hr Hx. apply list_elem_of_split in Hx as (l1 & l2 & ->).
  apply for_each_split in Hr as (b & e & a & _ & He & _ & Heq); [|done].
  simpl in Heq. symmetry in Heq.
  apply app_eq_nil in Heq as [_ [-> _]%app_eq_nil]. done.
Qed.

Lemma for_each_preserves {S} (I : S → Prop) (body : A → S → option S) l s r :
  for_each body l s = Some r → I s →
  (∀ x s s', x ∈ l → body x s = Some s' → I s → I s') → I r.
Proof.
  revert s. induction l as [|x l IH]; intros s Hr Hs Hb; simpl in Hr.
  - by injection Hr as <-.
  - destruct (body x s) as [s1|] eqn:Hx; [|done].
    apply (IH s1 Hr); [eapply Hb; [by left|done..]|].
    intros y t t' Hy. apply Hb. by right.
Qed.

(** Two bodies that give, element by element, the same records up to
    their order give the same records up to their order. *)
Lemma for_each_pointwise body1 body2 l r1 :
  appends body1 → appends body2 →
  (∀ x e1, x ∈ l → body1 x [] = Some e1 →
           ∃ e2, body2 x [] = Some e2 ∧ e1 ≡ₚ e2) →
  for_each body1 l [] = Some r1 →
  ∃ r2, for_each body2 l [] = Some r2 ∧ r1 ≡ₚ r2.
Proof.
  intros H1 H2. revert r1. induction l as [|x l IH]; intros r1 Hb Hr.
  - injection Hr as <-. by exists [].
  - rewrite for_each_cons_appends in Hr by done.
    destruct (body1 x []) as [e1|] eqn:He1; simpl in Hr; [|done].
    destruct (for_each body1 l []) as [a1|] eqn:Ha1; simpl in Hr; [|done].
    injection Hr as <-.
    destruct (Hb x e1) as (e2 & He2 & Hpe); [by left|done|].
    destruct (IH a1) as (a2 & Ha2 & Hpa); [|done|].
    { intros y e Hy. apply Hb. by right. }
    exists (e2 ++ a2). rewrite for_each_cons_appends, He2 by done. simpl.
    rewrite Ha2. simpl. split; [done|]. by rewrite Hpe, Hpa.
Qed.

(** The elements visited in another order give the same records up to
    their order. *)
Lemma for_each_perm body l l' r :
  appends body → l ≡ₚ l' →
  for_each body l [] = Some r →
  ∃ r', for_each body l' [] = Some r' ∧ r ≡ₚ r'.
Proof.
  intros Hb Hp. revert r.
  induction Hp as [|x l l' _ IH|x y l|l l' l'' _ IH1 _ IH2]; intros r Hr.
  - by exists r.
  - rewrite for_each_cons_appends in Hr by done.
    destruct (body x []) as [e|] eqn:He; simpl in Hr; [|done].
    destruct (for_each body l []) as [a|] eqn:Ha; simpl in Hr; [|done].
    injection Hr as <-. destruct (IH a eq_refl) as (a' & Ha' & Hpa).
    exists (e ++ a'). rewrite for_each_cons_appends, He by done. simpl.
    rewrite Ha'. simpl. split; [done|]. by rewrite Hpa.
  - rewrite for_each_cons_appends in Hr by done.
    destruct (body y []) as [ey|] eqn:Hy; cbn -[for_each] in Hr; [|done].
    rewrite for_each_cons_appends in Hr by done.
    destruct (body x []) as [ex|] eqn:Hx; cbn -[for_each] in Hr; [|done].
    destruct (for_each body l []) as [a|] eqn:Ha; simpl in Hr; [|done].
    injection Hr as <-. exists (ex ++ ey ++ a).
    rewrite for_each_cons_appends, Hx by done. cbn -[for_each].
    rewrite for_each_cons_appends, Hy by done. cbn -[for_each].
    rewrite Ha. simpl.
    split; [done|]. rewrite !app_assoc. f_equiv. apply Permutation_app_comm.
  - destruct (IH1 r Hr) as (r1 & Hr1 & Hp1).
    destruct (IH2 r1 Hr1) as (r2 & Hr2 & Hp2).
    exists r2. split; [done|]. by etrans.
Qed.

End ForEachAppends.

(** ** More on the comparator *)

Module ComparatorMore.
Import Comparator ComparatorProofs More.

Lemma same_structure_height h n : height n ≤ h → same_structure n n.
Proof.
  revert n. induction h as [|h IH]; intros n Hh.
  - pose proof (height_pos n). lia.
  - constructor; [done|done|done|].
    intros k sc pc Hs Hp. rewrite Hs in Hp. injection Hp as <-.
    apply IH. apply children_map_Some in Hs as [Hin _].
    apply height_child in Hin. lia.
Qed.

Lemma same_structure_sym s p : same_structure s p → same_structure p s.
Proof.
  induction 1 as [s p Hm Hp Hk _ IH].
  constructor; [done|done|by intros k; rewrite Hk|].
  intros k pc sc Hpc Hsc. by eapply IH.
Qed.

Section Empty.
Context (set_order : list key → list key → list key).
Context (Hord : set_order_ok set_order).

Lemma no_diffs_same_structure fuel s p pf diffs :
  find_arch_diffs set_order fuel s p pf diffs = Some diffs →
  same_structure s p.
Proof.
  revert s p pf diffs. induction fuel as [|fuel IH]; intros s p pf diffs Hr;
    [done|].
  rewrite find_arch_diffs_split in Hr.
  destruct (children_diffs set_order fuel s p) as [below|] eqn:Hb; [|done].
  simpl in Hr. injection Hr as Hr.
  rewrite <- (app_nil_r diffs) in Hr at 2. apply app_inv_head in Hr.
  apply app_eq_nil in Hr as [Hpair ->].
  assert (node_mismatch s p = false) as Hmis.
  { unfold pair_records in Hpair. by destruct (node_mismatch s p). }
  apply node_mismatch_false in Hmis as [Hmod Hports].
  assert (∀ k, k ∈ child_keys (get_list (Instances s)) ∨
               k ∈ child_keys (get_list (Instances p)) →
               ∃ sc pc,
                 children_map (get_list (Instances s)) !! k = Some sc ∧
                 children_map (get_list (Instances p)) !! k = Some pc ∧
                 same_structure sc pc) as Hboth.
  { intros k Hk%Hord.
    pose proof (for_each_nil_all _ _ k
      (loop_body_appends _ _ _ _
         (λ sc pc f d, find_arch_diffs_appends set_order fuel sc pc f d))
      Hb Hk) as Hstep.
    unfold loop_body in Hstep.
    destruct (children_map (get_list (Instances s)) !! k) as [sc|],
             (children_map (get_list (Instances p)) !! k) as [pc|];
      [|done..].
    exists sc, pc. split; [done|]. split; [done|]. by eapply IH. }
  constructor; [done|done| |].
  - intros k. split; intros Hk.
    + destruct (Hboth k (or_introl Hk)) as (sc & pc & _ & Hpc & _).
      apply children_map_is_Some. by eexists.
    + destruct (Hboth k (or_intror Hk)) as (sc & pc & Hsc & _ & _).
      apply children_map_is_Some. by eexists.
  - intros k sc pc Hsc Hpc.
    destruct (Hboth k) as (sc' & pc' & Hsc' & Hpc' & Hsame).
    { left. apply children_map_is_Some. by eexists. }
    congruence.
Qed.

End Empty.

(** X1. The report of two trees is empty exactly when they have no
    structural difference, and then the report of the two trees
    exchanged is empty as well. *)
Theorem empty_report_iff_same_structure set_order s p :
  set_order_ok set_order →
  (run_compare set_order s p = Some [] ↔ same_structure s p) ∧
  (run_compare set_order s p = Some [] ↔ run_compare set_order p s = Some []).
Proof.
  intros Hord.
  assert (∀ a b, run_compare set_order a b = Some [] ↔ same_structure a b)
    as Hiff.
  { intros a b. split.
    - apply (no_diffs_same_structure set_order Hord).
    - intros Hs. by apply same_structure_no_diffs. }
  split; [done|]. rewrite !Hiff. split; apply same_structure_sym.
Qed.

Lemma empty_report_iff_same_structure_witness :
  set_order_ok first_seen ∧
  (run_compare first_seen Samples.spec_top Samples.parsed_same = Some [] ↔
   same_structure Samples.spec_top Samples.parsed_same).
Proof.
  split; [apply first_seen_ok|].
  exact (proj1 (empty_report_iff_same_structure first_seen Samples.spec_top
                  Samples.parsed_same first_seen_ok)).
Defined.

(** X2. A tree compared with itself gives the empty report, whatever
    fields it lacks and whatever instance names its children share. *)
Theorem compare_self_empty set_order n :
  set_order_ok set_order → run_compare set_order n n = Some [].
Proof.
  intros Hord. apply same_structure_no_diffs; [done| |done].
  by apply (same_structure_height (height n)).
Qed.

Lemma compare_self_empty_witness :
  set_order_ok first_seen ∧
  run_compare first_seen Samples.parsed_other Samples.parsed_other = Some [].
Proof.
  split; [apply first_seen_ok|].
  exact (compare_self_empty first_seen Samples.parsed_other first_seen_ok).
Defined.

(** *** The order of the report *)

Lemma set_orders_perm ord1 ord2 a b :
  set_order_ok ord1 → set_order_ok ord2 → ord1 a b ≡ₚ ord2 a b.
Proof.
  intros H1 H2. destruct (H1 a b) as [Hn1 He1], (H2 a b) as [Hn2 He2].
  apply NoDup_Permutation; [done|done|]. intros k. by rewrite He1, He2.
Qed.

Lemma find_arch_diffs_orders ord1 ord2 fuel s p pf diffs r1 :
  set_order_ok ord1 → set_order_ok ord2 →
  find_arch_diffs ord1 fuel s p pf diffs = Some r1 →
  ∃ r2, find_arch_diffs ord2 fuel s p pf diffs = Some r2 ∧ r1 ≡ₚ r2.
Proof.
  intros H1 H2. revert s p pf diffs r1.
  induction fuel as [|fuel IH]; intros s p pf diffs r1 Hr; [done|].
  rewrite find_arch_diffs_unfold in *.
  set (sm := children_map (get_list (Instances s))) in *.
  set (pm := children_map (get_list (Instances p))) in *.
  set (cf := current_file s p) in *.
  assert (appends (loop_body (find_arch_diffs ord1 fuel) sm pm cf)) as Ha1
    by (apply loop_body_appends; intros; apply find_arch_diffs_appends).
  assert (appends (loop_body (find_arch_diffs ord2 fuel) sm pm cf)) as Ha2
    by (apply loop_body_appends; intros; apply find_arch_diffs_appends).
  rewrite for_each_appends in Hr by done.
  destruct (for_each _ _ []) as [b1|] eqn:Hb1; [|done].
  simpl in Hr. injection Hr as <-.
  assert (∃ b2,
    for_each (loop_body (find_arch_diffs ord2 fuel) sm pm cf)
      (ord1 (child_keys (get_list (Instances s)))
            (child_keys (get_list (Instances p)))) [] = Some b2 ∧ b1 ≡ₚ b2)
    as (b2 & Hb2 & Hp12).
  { eapply for_each_pointwise; [exact Ha1|exact Ha2| |exact Hb1].
    intros k e1 _. unfold loop_body.
    destruct (sm !! k) as [sc|], (pm !! k) as [pc|]; by eauto. }
  destruct (for_each_perm _ _
              (ord2 (child_keys (get_list (Instances s)))
                    (child_keys (get_list (Instances p))))
              _ Ha2 (set_orders_perm ord1 ord2 _ _ H1 H2) Hb2)
    as (b3 & Hb3 & Hp23).
  exists ((diffs ++ pair_records s p pf) ++ b3).
  rewrite (for_each_appends _ _ (diffs ++ _) Ha2), Hb3. simpl.
  split; [done|]. f_equiv. by etrans.
Qed.

(** X3. The order in which the sets of instance names are visited
    changes the order of the records of the report and nothing else:
    under two orders the two reports hold the same records, each as
    many times. *)
Theorem report_order_independent ord1 ord2 s p :
  set_order_ok ord1 → set_order_ok ord2 →
  ∃ r1 r2,
    run_compare ord1 s p = Some r1 ∧ run_compare ord2 s p = Some r2 ∧
    r1 ≡ₚ r2.
Proof.
  intros H1 H2.
  destruct (find_arch_diffs_total ord1 H1 (height s) s p None []) as [r1 Hr1];
    [done|].
  destruct (find_arch_diffs_orders ord1 ord2 _ _ _ _ _ _ H1 H2 Hr1)
    as (r2 & Hr2 & Hp).
  by exists r1, r2.
Qed.

(** *** The files of the records *)

Lemma string_app_nonempty s t : t ≠ "" → s +:+ t ≠ "".
Proof. destruct s; [done|]. by intros _. Qed.

Lemma current_node_file_nonempty p pf : current_node_file p pf ≠ "".
Proof.
  unfold current_node_file.
  destruct (truthy (get_str (File_path p))) eqn:E; [by apply truthy_true|].
  destruct pf as [q|]; [|done].
  destruct (truthy q) eqn:Eq; [by apply truthy_true|done].
Qed.

Lemma current_file_nonempty s p : current_file s p ≠ "".
Proof.
  unfold current_file.
  destruct (truthy (get_str (File_path p))) eqn:E; [by apply truthy_true|].
  destruct (truthy (get_str (Module_name p))); [by apply string_app_nonempty|].
  destruct (truthy (get_str (Module_name s))); [by apply string_app_nonempty|].
  done.
Qed.

Lemma find_arch_diffs_filed set_order fuel s p pf diffs r :
  find_arch_diffs set_order fuel s p pf diffs = Some r →
  Forall filed diffs → Forall filed r.
Proof.
  revert s p pf diffs r. induction fuel as [|fuel IH];
    intros s p pf diffs r Hr Hd; [done|].
  rewrite find_arch_diffs_unfold in Hr.
  eapply (for_each_preserves (Forall filed)); [exact Hr| |].
  - apply Forall_app. split; [done|]. unfold pair_records.
    destruct (node_mismatch s p); [|done]. constructor; [|done].
    intros Hf. by destruct (current_node_file_nonempty p pf).
  - intros k d d' _ Hstep Hfd. unfold loop_body in Hstep.
    destruct (children_map (get_list (Instances s)) !! k) as [sc|],
             (children_map (get_list (Instances p)) !! k) as [pc|];
      [by eapply IH| | |done]; injection Hstep as <-;
      apply Forall_app; (split; [done|]); constructor; try done.
    + intros Hf. by destruct (current_file_nonempty s p).
    + intros _. split; [done|]. by eexists.
Qed.

(** X4. Every record of a report names a file, except a record for
    an instance found in the actual tree only: the records of a pair
    and the records for an instance of the expected tree only are
    never filed under the empty string. *)
Theorem report_records_filed set_order s p :
  set_order_ok set_order →
  ∃ r, run_compare set_order s p = Some r ∧
       ∀ d, d ∈ r → file d = "" →
            SPEC d = Missing ∧ ∃ a, Parsed d = Present a.
Proof.
  intros Hord.
  destruct (find_arch_diffs_total set_order Hord (height s) s p None [])
    as [r Hr]; [done|].
  exists r. split; [done|]. intros d Hd.
  pose proof (find_arch_diffs_filed set_order _ _ _ _ _ _ Hr (Forall_nil_2 _))
    as Hf.
  rewrite Forall_forall in Hf. by apply Hf.
Qed.

Lemma report_records_filed_witness :
  set_order_ok first_seen ∧
  ∃ r, run_compare first_seen Samples.spec_small Samples.parsed_small = Some r ∧
       ∀ d, d ∈ r → file d = "" →
            SPEC d = Missing ∧ ∃ a, Parsed d = Present a.
Proof.
  split; [apply first_seen_ok|].
  exact (report_records_filed first_seen Samples.spec_small
           Samples.parsed_small first_seen_ok).
Defined.

Lemma report_order_independent_witness :
  set_order_ok first_seen ∧
  set_order_ok (λ a b, reverse (first_seen a b)) ∧
  ∃ r1 r2,
    run_compare first_seen Samples.spec_top Samples.parsed_other = Some r1 ∧
    run_compare (λ a b, reverse (first_seen a b))
      Samples.spec_top Samples.parsed_other = Some r2 ∧
    r1 ≡ₚ r2.
Proof.
  assert (set_order_ok (λ a b, reverse (first_seen a b))) as Hrev.
  { intros a b. destruct (first_seen_ok a b) as [Hn He]. split.
    - by rewrite reverse_Permutation.
    - intros k. by rewrite elem_of_reverse. }
  split; [apply first_seen_ok|]. split; [exact Hrev|].
  exact (report_order_independent first_seen _ Samples.spec_top
           Samples.parsed_other first_seen_ok Hrev).
Defined.

(** *** Children under the same instance name *)

Lemma children_map_shadow (l2 : list node) (m : gmap key node) k c c' :
  k ∈ child_keys l2 →
  foldl (λ m c, <[Instance_name c := c]> m) (<[k := c]> m) l2 =
  foldl (λ m c, <[Instance_name c := c]> m) (<[k := c']> m) l2.
Proof.
  revert m. induction l2 as [|x l2 IH]; intros m Hin;
    [by apply elem_of_nil in Hin|].
  change (child_keys (x :: l2)) with (Instance_name x :: child_keys l2) in Hin.
  simpl. destruct (decide (Instance_name x = k)) as [Hx|Hx].
  - rewrite Hx. by rewrite !insert_insert_eq.
  - apply elem_of_cons in Hin as [Hin|Hin]; [congruence|].
    rewrite !(insert_insert_ne m (Instance_name x) k) by done.
    by apply IH.
Qed.

Lemma children_map_shadowed l1 l2 c c' :
  Instance_name c = Instance_name c' →
  Instance_name c ∈ child_keys l2 →
  children_map (l1 ++ c :: l2) = children_map (l1 ++ c' :: l2) ∧
  child_keys (l1 ++ c :: l2) = child_keys (l1 ++ c' :: l2).
Proof.
  intros Hn Hin. split.
  - unfold children_map. rewrite !foldl_app. simpl. rewrite <- Hn.
    by apply children_map_shadow.
  - unfold child_keys. rewrite !fmap_app, !fmap_cons. by rewrite Hn.
Qed.

(** X5. A child that a later sibling of the same instance name follows
    is not compared: replacing it, on either side, by any node of that
    instance name leaves the result of the call as it is. *)
Theorem shadowed_child_ignored set_order fuel s p pf diffs l1 l2 c c' :
  Instance_name c = Instance_name c' →
  Instance_name c ∈ child_keys l2 →
  find_arch_diffs set_order fuel
      (set_Instances s (Some (l1 ++ c :: l2))) p pf diffs =
    find_arch_diffs set_order fuel
      (set_Instances s (Some (l1 ++ c' :: l2))) p pf diffs ∧
  find_arch_diffs set_order fuel
      s (set_Instances p (Some (l1 ++ c :: l2))) pf diffs =
    find_arch_diffs set_order fuel
      s (set_Instances p (Some (l1 ++ c' :: l2))) pf diffs.
Proof.
  intros Hn Hin.
  destruct (children_map_shadowed l1 l2 c c' Hn Hin) as [Hm Hk].
  destruct fuel as [|fuel]; [done|].
  rewrite !find_arch_diffs_unfold.
  destruct s as [sm si sf sp sc], p as [pm pi pf' pp pc].
  unfold set_Instances, pair_records, pair_record, node_mismatch, current_file.
  cbn -[children_map child_keys for_each find_arch_diffs ports_norm].
  by rewrite Hm, Hk.
Qed.

Lemma shadowed_child_ignored_witness :
  Instance_name (Samples.leaf "X" "u2" ["q"]) =
    Instance_name (Samples.leaf "Y" "u2" []) ∧
  Instance_name (Samples.leaf "X" "u2" ["q"]) ∈
    child_keys [Samples.leaf "B" "u2" []] ∧
  find_arch_diffs first_seen 2
      (spec_shadowed (Samples.leaf "X" "u2" ["q"]))
      Samples.parsed_same None [] =
    find_arch_diffs first_seen 2
      (spec_shadowed (Samples.leaf "Y" "u2" []))
      Samples.parsed_same None [].
Proof.
  split; [reflexivity|]. split; [by left|].
  refine (proj1 (shadowed_child_ignored first_seen 2 Samples.spec_top
                   Samples.parsed_same None []
                   [Samples.leaf "A" "u1" ["p"]] [Samples.leaf "B" "u2" []]
                   (Samples.leaf "X" "u2" ["q"]) (Samples.leaf "Y" "u2" [])
                   _ _)); [reflexivity|by left].
Defined.

(** *** Normalized ports *)

Lemma normalize_port_no_space s : contains " " (normalize_port s) = false.
Proof.
  induction s as [|a s IH]; [done|]. simpl.
  destruct (Ascii.eqb a " ") eqn:Ea; [done|].
  change (contains " " (String a (normalize_port s)))
    with (String.prefix " " (String a (normalize_port s)) ||
          contains " " (normalize_port s)).
  rewrite IH, orb_false_r. cbn [String.prefix].
  destruct (ascii_dec " " a) as [<-|?]; [by rewrite Ascii.eqb_refl in Ea|done].
Qed.

Lemma normalize_port_idem s : normalize_port (normalize_port s) = normalize_port s.
Proof.
  induction s as [|a s IH]; [done|]. simpl.
  destruct (Ascii.eqb a " ") eqn:Ea; [done|]. simpl. by rewrite Ea, IH.
Qed.

(** X6. A normalized port holds no space character and normalizing it
    again changes nothing; the normalized port list of a node is in
    ascending order, holds the normalized entries of the node, each as
    many times, and is its own normalized port list. *)
Theorem ports_norm_canonical (ports : list string) :
  (∀ q, q ∈ ports_norm ports →
        contains " " q = false ∧ normalize_port q = q) ∧
  Sorted String.le (ports_norm ports) ∧
  ports_norm ports ≡ₚ normalize_port <$> ports ∧
  ports_norm (ports_norm ports) = ports_norm ports.
Proof.
  assert (ports_norm ports ≡ₚ normalize_port <$> ports) as Hp
    by apply merge_sort_Permutation.
  assert (∀ q, q ∈ ports_norm ports →
               contains " " q = false ∧ normalize_port q = q) as Hq.
  { intros q Hin. rewrite Hp in Hin.
    apply list_elem_of_fmap in Hin as (x & -> & _).
    split; [apply normalize_port_no_space|apply normalize_port_idem]. }
  assert (Sorted String.le (ports_norm ports)) as Hs
    by apply Sorted_merge_sort, _.
  split; [done|]. split; [done|]. split; [done|].
  assert (normalize_port <$> ports_norm ports = ports_norm ports) as Hid.
  { rewrite <- (list_fmap_id (ports_norm ports)) at 2.
    apply list_fmap_ext. intros i q Hi. apply Hq.
    by eapply list_elem_of_lookup_2. }
  unfold ports_norm at 1. rewrite Hid. unfold sorted.
  apply (Sorted_unique String.le); [apply Sorted_merge_sort, _|done|].
  apply merge_sort_Permutation.
Qed.

(** *** Entries that differ by spaces *)

Lemma space_edit_cons c a b :
  space_edit a b → space_edit (String c a) (String c b).
Proof.
  induction 1 as [s|s1 s2|s1 s2|a b d _ IH1 _ IH2].
  - apply space_edit_refl.
  - apply (space_edit_insert (String c s1) s2).
  - apply (space_edit_remove (String c s1) s2).
  - by eapply space_edit_trans.
Qed.

Lemma space_edit_sym a b : space_edit a b → space_edit b a.
Proof.
  induction 1 as [s|s1 s2|s1 s2|a b d _ IH1 _ IH2].
  - apply space_edit_refl.
  - apply space_edit_remove.
  - apply space_edit_insert.
  - by eapply space_edit_trans.
Qed.

Lemma space_edit_to_normal s : space_edit s (normalize_port s).
Proof.
  induction s as [|c s IH]; [apply space_edit_refl|]. simpl.
  destruct (Ascii.eqb c " ") eqn:Ec.
  - apply Ascii.eqb_eq in Ec as ->.
    eapply space_edit_trans; [apply (space_edit_remove "" s)|exact IH].
  - by apply space_edit_cons.
Qed.

Lemma sorted_eq_perm (l1 l2 : list string) : sorted l1 = sorted l2 → l1 ≡ₚ l2.
Proof.
  intros Heq. unfold sorted in Heq.
  rewrite <- (merge_sort_Permutation String.le l1).
  rewrite <- (merge_sort_Permutation String.le l2). by rewrite Heq.
Qed.

(** X7. Two port entries have the same normalized form exactly when
    one is obtained from the other by inserting and removing space
    characters, and two port lists have the same normalized port list
    exactly when one is a rearrangement of the other with entries
    rewritten in that way. *)
Theorem ports_equal_iff_edit :
  (∀ a b, normalize_port a = normalize_port b ↔ space_edit a b) ∧
  (∀ l l', ports_norm l = ports_norm l' ↔ ports_edit l l').
Proof.
  assert (∀ a b, normalize_port a = normalize_port b ↔ space_edit a b) as He.
  { intros a b. split; [|apply space_edit_normalize].
    intros Hn. eapply space_edit_trans; [apply space_edit_to_normal|].
    rewrite Hn. apply space_edit_sym, space_edit_to_normal. }
  split; [done|]. intros l l'. split; [|apply ports_edit_norm].
  intros Hn%sorted_eq_perm. symmetry in Hn.
  apply Permutation_map_inv in Hn as (l0 & Heq & Hp).
  exists l0. split; [done|].
  clear Hp. revert l' Heq. induction l0 as [|x l0 IH]; intros [|y l'] Heq;
    try done.
  injection Heq as Hxy Heq. constructor; [|by apply IH].
  by apply He.
Qed.

End ComparatorMore.

(** ** More on the extractor *)

Module ExtractorMore.
Import Comparator Extractor ExtractorProofs More.

(** *** The graph exports *)

Lemma add_nested_module_returns hd fuel m st :
  size (list_to_set (C := gset string) (OrderedDict.keys (hierarchy hd)) ∖ st.1)
    < fuel →
  ∃ st', add_nested_module fuel hd m st = Some st' ∧ st.1 ⊆ st'.1.
Proof.
  set (K := list_to_set (C := gset string) (OrderedDict.keys (hierarchy hd))).
  revert m st. induction fuel as [|fuel IH]; intros m st Hsz; [lia|].
  simpl. case_bool_decide as Hvis; [by exists st|].
  destruct (OrderedDict.get m (hierarchy hd)) as [info|] eqn:Hget.
  - assert (m ∈ K) as HmK.
    { apply elem_of_list_to_set. by eapply get_Some_keys. }
    assert (size (K ∖ ({[m]} ∪ st.1)) < size (K ∖ st.1)) as Hlt.
    { apply subset_size. set_solver. }
    match goal with |- ∃ st', for_each ?body ?l ?s0 = _ ∧ _ =>
      destruct (for_each_invariant (λ s, {[m]} ∪ st.1 ⊆ s.1) body l s0)
        as (st' & Hst' & Hinv) end.
    + done.
    + intros sub s1 _ Hs1.
      assert (∃ s2,
        (if bool_decide (is_Some (OrderedDict.get (sub_type sub) (hierarchy hd)))
            && negb (bool_decide (sub_type sub ∈ s1.1))
         then add_nested_module fuel hd (sub_type sub) s1 else Some s1)
        = Some s2 ∧ s1.1 ⊆ s2.1) as (s2 & -> & Hs2).
      { destruct (_ && _); [|by exists s1].
        apply IH.
        assert (size (K ∖ s1.1) ≤ size (K ∖ ({[m]} ∪ st.1))); [|lia].
        apply subseteq_size. set_solver. }
      simpl. case_bool_decide; eexists; (split; [done|]); simpl; set_solver.
    + exists st'. split; [done|]. simpl in Hinv. set_solver.
  - eexists. split; [done|]. simpl. set_solver.
Qed.

Lemma add_module_nodes_visits hd fuel m parent st st' :
  add_module_nodes fuel hd m parent st = Some st' →
  m ∈ st'.1 ∧ st.1 ⊆ st'.1.
Proof.
  revert m parent st st'. induction fuel as [|fuel IH];
    intros m parent st st' Hr; [done|].
  simpl in Hr. case_bool_decide as Hvis; [by injection Hr as <-|].
  destruct (OrderedDict.get m (hierarchy hd)) as [info|].
  - match type of Hr with for_each ?body ?l ?s0 = _ =>
      pose proof (for_each_preserves
        (λ s : gset string * list string, {[m]} ∪ st.1 ⊆ s.1)
        body l s0 st' Hr) as Hinv end.
    simpl in Hinv. cut ({[m]} ∪ st.1 ⊆ st'.1); [set_solver|].
    apply Hinv; [done|]. intros sub s1 s2 _ Hstep Hs1.
    apply IH in Hstep as [_ Hsub]. simpl in Hsub. set_solver.
  - injection Hr as <-. simpl. set_solver.
Qed.

(** X8. The two graph exports return on every design, cycles of
    instances included, within a depth of one more than the number of
    modules, and the walk of the first has then visited the top
    module. *)
Theorem graph_exports_return hd top :
  let fuel := S (size (list_to_set (C := gset string)
                         (OrderedDict.keys (hierarchy hd)))) in
  (∃ st, add_module_nodes fuel hd top None (∅, []) = Some st ∧ top ∈ st.1) ∧
  is_Some (export_hierarchy_to_dot fuel hd top) ∧
  is_Some (export_nested_hierarchy_to_dot fuel hd top).
Proof.
  intros fuel.
  assert (∀ out : list string,
    size (list_to_set (C := gset string) (OrderedDict.keys (hierarchy hd))
          ∖ (∅, out).1) < fuel) as Hsz.
  { intros out. simpl. rewrite difference_empty_L. unfold fuel. lia. }
  split; [|split].
  - destruct (add_module_nodes_returns hd fuel top None (∅, []))
      as (st & Hst & _); [by apply Hsz|].
    exists st. split; [done|]. by apply add_module_nodes_visits in Hst as [? _].
  - unfold export_hierarchy_to_dot.
    edestruct (add_module_nodes_returns hd fuel top None) as (st & -> & _);
      [by apply Hsz|by eexists].
  - unfold export_nested_hierarchy_to_dot.
    edestruct (add_nested_module_returns hd fuel top) as (st & -> & _);
      [by apply Hsz|by eexists].
Qed.

(** *** The tree of the JSON export *)

Lemma build_structure_unfold fuel hd m i c :
  build_structure (S fuel) hd m i c =
  children ← children_of fuel hd m;
  Some (Node (Some m) (Some i)
          (Some (from_option file_path "" (OrderedDict.get m (hierarchy hd))))
          (Some (port_list_of hd m c)) (Some children)).
Proof. unfold children_of. simpl. by destruct (OrderedDict.get m _). Qed.

Lemma height_Node m i f ps (cs : list node) h :
  Forall (λ c, height c ≤ h) cs → height (Node m i f ps (Some cs)) ≤ S h.
Proof.
  intros Hcs. simpl. apply le_n_S.
  induction Hcs as [|c cs Hc _ IH]; simpl; lia.
Qed.

Lemma build_structure_fields fuel hd m i c n :
  build_structure fuel hd m i c = Some n →
  all_fields_present n ∧ height n ≤ fuel.
Proof.
  revert m i c n. induction fuel as [|fuel IH]; intros m i c n Hr; [done|].
  rewrite build_structure_unfold in Hr.
  destruct (children_of fuel hd m) as [children|] eqn:Hch; [|done].
  simpl in Hr. injection Hr as <-.
  assert (Forall (λ ch, all_fields_present ch ∧ height ch ≤ fuel) children)
    as Hall.
  { unfold children_of in Hch.
    destruct (OrderedDict.get m (hierarchy hd)) as [info|];
      [|injection Hch as <-; constructor].
    apply mapM_Some in Hch.
    induction Hch as [|sub ch subs chs Hb _ IHf]; constructor; [|done].
    by eapply IH. }
  split.
  - constructor. eapply Forall_impl; [exact Hall|]. by intros ch [? _].
  - apply height_Node. eapply Forall_impl; [exact Hall|]. by intros ch [_ ?].
Qed.

Lemma build_structure_root fuel hd m i c n :
  build_structure fuel hd m i c = Some n →
  Module_name n = Some m ∧ Instance_name n = Some i.
Proof.
  destruct fuel as [|fuel]; [done|]. rewrite build_structure_unfold.
  destruct (children_of fuel hd m); [|done]. simpl. by intros [= <-].
Qed.

(** X9. A tree that the JSON export returns has all five fields at
    every node, so the comparator reads no default from it and files
    a record for an instance found in it only under the [File_path]
    of that instance, never under the file of the parent. Its root
    carries the module, the instance name and the file asked for; its
    children are the instances of the module, in their order, each
    with its module type, its name and its connections as ports. *)
Theorem json_tree_shape fuel hd m i c n :
  build_structure fuel hd m i c = Some n →
  all_fields_present n ∧
  height n ≤ fuel ∧
  Module_name n = Some m ∧ Instance_name n = Some i ∧
  File_path n =
    Some (from_option file_path "" (OrderedDict.get m (hierarchy hd))) ∧
  Port n = Some (port_list_of hd m c) ∧
  (∃ children,
     Instances n = Some children ∧
     Forall2
       (λ sub ch,
          Module_name ch = Some (sub_type sub) ∧
          Instance_name ch = Some (sub_name sub) ∧
          all_fields_present ch)
       (from_option submodules [] (OrderedDict.get m (hierarchy hd)))
       children) ∧
  (∀ cur_file k, file (missing_in_spec cur_file k n) = get_str (File_path n)).
Proof.
  intros Hr. destruct (build_structure_fields _ _ _ _ _ _ Hr) as [Hf Hh].
  split; [done|]. split; [done|].
  destruct fuel as [|fuel]; [done|].
  rewrite build_structure_unfold in Hr.
  destruct (children_of fuel hd m) as [children|] eqn:Hch; [|done].
  simpl in Hr. injection Hr as <-. simpl.
  repeat split. exists children. split; [done|].
  unfold children_of in Hch.
  destruct (OrderedDict.get m (hierarchy hd)) as [info|]; simpl;
    [|injection Hch as <-; constructor].
  apply mapM_Some in Hch.
  eapply Forall2_impl; [exact Hch|]. intros sub ch Hb. simpl in Hb.
  destruct (build_structure_fields _ _ _ _ _ _ Hb) as [Hfc _].
  destruct fuel as [|fuel]; [done|].
  rewrite build_structure_unfold in Hb.
  destruct (children_of fuel hd (sub_type sub)); [|done].
  simpl in Hb. by injection Hb as <-.
Qed.

(** *** Designs without cycles *)

Lemma for_each_mono {A S} (body1 body2 : A → S → option S) l s r :
  (∀ x s s', x ∈ l → body1 x s = Some s' → body2 x s = Some s') →
  for_each body1 l s = Some r → for_each body2 l s = Some r.
Proof.
  revert s. induction l as [|x l IH]; intros s Hb Hr; [done|].
  simpl in *. destruct (body1 x s) as [s1|] eqn:H1; [|done].
  rewrite (Hb x s s1) by (done || by left).
  apply IH; [|done]. intros y t t' Hy. apply Hb. by right.
Qed.

Lemma build_structure_mono hd fuel fuel' m i c n :
  fuel ≤ fuel' →
  build_structure fuel hd m i c = Some n →
  build_structure fuel' hd m i c = Some n.
Proof.
  revert fuel' m i c n. induction fuel as [|fuel IH];
    intros fuel' m i c n Hle Hr; [done|].
  destruct fuel' as [|fuel']; [lia|].
  rewrite build_structure_unfold in *.
  destruct (children_of fuel hd m) as [children|] eqn:Hch; [|done].
  assert (children_of fuel' hd m = Some children) as ->; [|done].
  unfold children_of in *.
  destruct (OrderedDict.get m (hierarchy hd)) as [info|]; [|done].
  apply mapM_Some. apply mapM_Some in Hch.
  eapply Forall2_impl; [exact Hch|]. intros sub ch Hb. simpl in *.
  apply IH; [lia|done].
Qed.

Lemma print_module_hierarchy_mono hd fuel fuel' m level indent out r :
  fuel ≤ fuel' →
  print_module_hierarchy fuel hd m level indent out = Some r →
  print_module_hierarchy fuel' hd m level indent out = Some r.
Proof.
  revert fuel' m level indent out r. induction fuel as [|fuel IH];
    intros fuel' m level indent out r Hle Hr; [done|].
  destruct fuel' as [|fuel']; [lia|]. simpl in *.
  destruct (OrderedDict.get m (hierarchy hd)) as [info|]; [|done].
  eapply for_each_mono; [|exact Hr]. intros sub o o' _ Hstep. simpl in *.
  destruct (OrderedDict.get (sub_type sub) (hierarchy hd)); [|done].
  apply IH; [lia|done].
Qed.

Section Ranked.
Context (hd : hierarchy_data) (rank : string → nat).
Context (Hrank : ranked hd rank).

Lemma build_structure_unknown fuel m i c :
  OrderedDict.get m (hierarchy hd) = None →
  is_Some (build_structure (S fuel) hd m i c).
Proof.
  intros Hm. rewrite build_structure_unfold. unfold children_of.
  rewrite Hm. by eexists.
Qed.

Lemma build_structure_ranked fuel m i c :
  rank m + 2 ≤ fuel → is_Some (build_structure fuel hd m i c).
Proof.
  revert m i c. induction fuel as [|fuel IH]; intros m i c Hf; [lia|].
  destruct (OrderedDict.get m (hierarchy hd)) as [info|] eqn:Hm;
    [|by apply build_structure_unknown].
  rewrite build_structure_unfold.
  assert (is_Some (children_of fuel hd m)) as [children ->]; [|by eexists].
  unfold children_of. rewrite Hm. apply mapM_is_Some, Forall_forall.
  intros sub Hsub. simpl.
  destruct (OrderedDict.get (sub_type sub) (hierarchy hd)) as [ib|] eqn:Hb.
  - apply IH. assert (rank (sub_type sub) < rank m); [|lia].
    apply Hrank. exists info, sub. repeat split; [done..|by eexists].
  - destruct fuel as [|fuel]; [lia|]. by apply build_structure_unknown.
Qed.

Lemma print_module_hierarchy_ranked fuel m level indent out :
  rank m + 1 ≤ fuel →
  is_Some (print_module_hierarchy fuel hd m level indent out).
Proof.
  revert m level indent out. induction fuel as [|fuel IH];
    intros m level indent out Hf; [lia|]. simpl.
  destruct (OrderedDict.get m (hierarchy hd)) as [info|] eqn:Hm;
    [|by eexists].
  apply for_each_is_Some. intros sub o Hsub. simpl.
  destruct (OrderedDict.get (sub_type sub) (hierarchy hd)) as [ib|] eqn:Hb;
    [|by eexists].
  apply IH. assert (rank (sub_type sub) < rank m); [|lia].
  apply Hrank. exists info, sub. repeat split; [done..|by eexists].
Qed.

End Ranked.

(** X10. On a design without a cycle of instances the listing and the
    JSON export return, within a depth of the rank of the top module
    plus two, and a deeper bound gives the same text and the same
    tree. *)
Theorem walks_return_without_cycle hd rank top :
  ranked hd rank →
  ∃ txt tree,
    ∀ fuel, rank top + 2 ≤ fuel →
      print_module_hierarchy fuel hd top 0 "" [] = Some txt ∧
      build_structure fuel hd top "Top" None = Some tree.
Proof.
  intros Hrank.
  destruct (print_module_hierarchy_ranked hd rank Hrank (rank top + 2)
              top 0 "" []) as [txt Htxt]; [lia|].
  destruct (build_structure_ranked hd rank Hrank (rank top + 2)
              top "Top" None) as [tree Htree]; [lia|].
  exists txt, tree. intros fuel Hf. split.
  - by eapply print_module_hierarchy_mono.
  - by eapply build_structure_mono.
Qed.

(** *** The entries of the parser *)

Lemma get_set {V} k k' (v : V) d :
  OrderedDict.get k (OrderedDict.set k' v d) =
  if decide (k = k') then Some v else OrderedDict.get k d.
Proof.
  induction d as [|[k0 v0] d IH]; simpl; [done|].
  destruct (decide (k' = k0)) as [->|H0]; simpl;
    repeat case_decide; simplify_eq; done.
Qed.

Lemma get_update {V} k k' (f : V → V) d :
  OrderedDict.get k (OrderedDict.update k' f d) =
  if decide (k = k') then f <$> OrderedDict.get k d else OrderedDict.get k d.
Proof.
  induction d as [|[k0 v0] d IH]; simpl; [by case_decide|].
  destruct (decide (k' = k0)) as [->|H0]; simpl;
    repeat case_decide; simplify_eq; done.
Qed.

Lemma NoDup_fmap_eq {A B} (f : A → B) (l : list A) x y :
  NoDup (f <$> l) → x ∈ l → y ∈ l → f x = f y → x = y.
Proof.
  induction l as [|a l IH]; [by intros _ ?%elem_of_nil|].
  rewrite fmap_cons, NoDup_cons. intros [Ha Hnd] Hx Hy Hf.
  apply elem_of_cons in Hx as [->|Hx], Hy as [->|Hy]; [done| | |by apply IH].
  - destruct Ha. rewrite Hf. by apply list_elem_of_fmap_2.
  - destruct Ha. rewrite <- Hf. by apply list_elem_of_fmap_2.
Qed.

(** The ports the second loop adds for the variables of one module. *)
Lemma add_module_ports tn fm acc m n :
  default [] ((add_module tn fm acc m).2 !! n) =
  default [] (acc.2 !! n) ++
  (if decide (n = mod_name m) then ports_of_module m else []).
Proof.
  unfold add_module, ports_of_module. cbn [snd].
  generalize (acc.2). generalize (mod_vars m). intros vars.
  induction vars as [|v vars IH]; intros ps; simpl.
  - case_decide; by rewrite app_nil_r.
  - rewrite IH. case_bool_decide as Hdir.
    + rewrite filter_cons_True by done. csimpl.
      destruct (decide (n = mod_name m)) as [->|Hn].
      * rewrite lookup_insert_eq. simpl. by rewrite <- app_assoc.
      * rewrite lookup_insert_ne by done. done.
    + rewrite filter_cons_False by done. done.
Qed.

Lemma second_loop_ports tn fm acc mods n :
  n ∉ mod_name <$> mods →
  default [] ((foldl (add_module tn fm) acc mods).2 !! n) =
  default [] (acc.2 !! n).
Proof.
  revert acc. induction mods as [|m mods IH]; intros acc Hn; [done|].
  rewrite fmap_cons, not_elem_of_cons in Hn. destruct Hn as [Hn1 Hn2].
  simpl. rewrite IH by done. rewrite add_module_ports.
  rewrite decide_False by done. by rewrite app_nil_r.
Qed.

Lemma second_loop_get tn fm acc mods n :
  n ∉ mod_name <$> mods →
  OrderedDict.get n (foldl (add_module tn fm) acc mods).1 =
  OrderedDict.get n acc.1.
Proof.
  revert acc. induction mods as [|m mods IH]; intros acc Hn; [done|].
  rewrite fmap_cons, not_elem_of_cons in Hn. destruct Hn as [Hn1 Hn2].
  simpl. rewrite IH by done. unfold add_module. cbn [fst].
  rewrite get_set. by rewrite decide_False.
Qed.

Lemma add_instances_other h m n :
  n ≠ mod_name m →
  OrderedDict.get n (add_instances h m) = OrderedDict.get n h.
Proof.
  intros Hn. unfold add_instances. generalize (mod_instances m).
  intros l. revert h. induction l as [|i l IH]; intros h; [done|].
  simpl. rewrite IH. unfold add_instance. rewrite get_update.
  by rewrite decide_False.
Qed.

Lemma third_loop_get h mods n :
  n ∉ mod_name <$> mods →
  OrderedDict.get n (foldl add_instances h mods) = OrderedDict.get n h.
Proof.
  revert h. induction mods as [|m mods IH]; intros h Hn; [done|].
  rewrite fmap_cons, not_elem_of_cons in Hn. destruct Hn as [Hn1 Hn2].
  simpl. rewrite IH by done. by apply add_instances_other.
Qed.

Lemma add_instance_fold n h l info0 :
  OrderedDict.get n h = Some info0 →
  ∃ info,
    OrderedDict.get n (foldl (add_instance n) h l) = Some info ∧
    submodules info =
      submodules info0 ++
      ((λ i, Submodule (inst_name i) (inst_defName i)) <$> l) ∧
    top info = top info0 ∧ file_path info = file_path info0 ∧
    default ∅ (connections info) =
      foldl (λ cm i, <[inst_name i := connections_of i]> cm)
            (default ∅ (connections info0)) l.
Proof.
  revert h info0. induction l as [|i l IH]; intros h info0 Hget.
  - exists info0. by rewrite app_nil_r.
  - simpl. edestruct (IH (add_instance n h i)) as (info & Hg & Hs & Ht & Hf & Hc).
    { unfold add_instance. rewrite get_update, decide_True by done.
      by rewrite Hget. }
    exists info. split; [done|]. simpl in *.
    rewrite Hs, Ht, Hf, Hc. by rewrite <- app_assoc.
Qed.

Lemma connections_fold (l : list xml_instance)
    (cm : gmap string (list connection)) i :
  NoDup (inst_name <$> l) → i ∈ l →
  foldl (λ cm i, <[inst_name i := connections_of i]> cm) cm l !! inst_name i
  = Some (connections_of i).
Proof.
  revert cm. induction l as [|x l IH]; intros cm Hnd Hi;
    [by apply elem_of_nil in Hi|].
  rewrite fmap_cons, NoDup_cons in Hnd. destruct Hnd as [Hx Hnd].
  apply elem_of_cons in Hi as [->|Hi]; [|by apply IH].
  simpl. clear IH Hnd. revert cm.
  induction l as [|y l IH]; intros cm; simpl; [by rewrite lookup_insert_eq|].
  rewrite fmap_cons, not_elem_of_cons in Hx. destruct Hx as [Hxy Hx].
  rewrite insert_insert_ne by done. by apply IH.
Qed.

(** X11. When the modules of the document have distinct names, the
    parser records for each module its instances in their order, its
    top flag, the file its location names, its input, output and inout
    variables as ports, and, when its instances have distinct names,
    the connections of each instance under the name of the instance. *)
Theorem parse_module_entry list_of_set doc m :
  NoDup (module_names doc) → m ∈ doc_modules doc →
  let hd := parse_xml_module_hierarchy list_of_set doc in
  ∃ info,
    OrderedDict.get (mod_name m) (hierarchy hd) = Some info ∧
    submodules info = submodules_of_module m ∧
    top info = mod_topModule m ∧
    file_path info = file_of_module doc m ∧
    default [] (ports hd !! mod_name m) = ports_of_module m ∧
    (NoDup (inst_name <$> mod_instances m) →
     ∀ i, i ∈ mod_instances m →
          default ∅ (connections info) !! inst_name i =
            Some (connections_of i)).
Proof.
  intros Hnames Hm hd.
  pose proof Hm as (l1 & l2 & Hsplit)%list_elem_of_split.
  pose proof Hnames as Hnd.
  unfold module_names in Hnd. rewrite Hsplit in Hnd.
  rewrite fmap_app, fmap_cons in Hnd.
  apply NoDup_app in Hnd as (_ & Hl1 & [Hl2 _]%NoDup_cons).
  assert (mod_name m ∉ mod_name <$> l1) as Hn1.
  { intros Hin. apply (Hl1 _ Hin). by left. }
  set (tn := flagged doc). set (fm := file_map_of (doc_files doc)).
  set (skel := {| submodules := [];
                  top := bool_decide (mod_name m ∈ tn);
                  file_path := file_of_module doc m;
                  connections := None |}).
  assert (OrderedDict.get (mod_name m)
            (foldl (add_module tn fm) ([], ∅) (doc_modules doc)).1 = Some skel)
    as Hp1.
  { rewrite Hsplit, foldl_app. simpl. rewrite second_loop_get by done.
    unfold add_module at 1. cbn [fst]. rewrite get_set.
    by rewrite decide_True. }
  assert (default [] ((foldl (add_module tn fm) ([], ∅) (doc_modules doc)).2
                        !! mod_name m) = ports_of_module m) as Hports.
  { rewrite Hsplit, foldl_app. simpl. rewrite second_loop_ports by done.
    rewrite add_module_ports, decide_True by done.
    rewrite second_loop_ports by done. done. }
  destruct (add_instance_fold (mod_name m)
              (foldl add_instances
                 (foldl (add_module tn fm) ([], ∅) (doc_modules doc)).1 l1)
              (mod_instances m) skel)
    as (info & Hg & Hs & Ht & Hf & Hc).
  { by rewrite third_loop_get. }
  exists info. split; [|split; [|split; [|split; [|split]]]].
  - unfold hd. simpl. fold tn fm. rewrite Hsplit at 2. rewrite foldl_app.
    simpl. rewrite third_loop_get by done. exact Hg.
  - exact Hs.
  - rewrite Ht. simpl. destruct (mod_topModule m) eqn:Etop.
    + apply bool_decide_eq_true. unfold tn, flagged.
      apply list_elem_of_fmap_2'  with m; [|done].
      by apply list_elem_of_filter.
    + apply bool_decide_eq_false. unfold tn, flagged.
      intros (m' & Hname & [Hflag Hin]%list_elem_of_filter)%list_elem_of_fmap.
      assert (m = m') as <-; [|congruence].
      by apply (NoDup_fmap_eq mod_name (doc_modules doc)).
  - by rewrite Hf.
  - exact Hports.
  - intros Hni i Hi. rewrite Hc. by apply connections_fold.
Qed.

(** *** The listing against the tree *)

Lemma node_count_Node m i f ps (cs : list node) :
  node_count (Node m i f ps (Some cs)) =
  S (foldr (λ c k, node_count c + k) 0 cs).
Proof. done. Qed.

Lemma for_each_count {A} (body : A → list string → option (list string))
    (g : A → option node) l chs o r :
  for_each body l o = Some r →
  Forall2 (λ x ch, g x = Some ch) l chs →
  (∀ x o o1 ch, body x o = Some o1 → g x = Some ch →
                length o1 = length o + node_count ch) →
  length r = length o + foldr (λ c k, node_count c + k) 0 chs.
Proof.
  intros Hr Hf Hbody. revert o Hr.
  induction Hf as [|x ch l chs Hg _ IH]; intros o Hr; simpl in *.
  - injection Hr as <-. lia.
  - destruct (body x o) as [o1|] eqn:Hb; [|done].
    rewrite (IH _ Hr), (Hbody _ _ _ _ Hb Hg). lia.
Qed.

Lemma print_counts_nodes hd fuel fuel' m level indent out r i c n :
  print_module_hierarchy fuel hd m level indent out = Some r →
  build_structure fuel' hd m i c = Some n →
  length r + 1 = length out + (if level =? 0 then 1 else 0) + node_count n.
Proof.
  revert fuel' m level indent out r i c n.
  induction fuel as [|fuel IH];
    intros fuel' m level indent out r i c n Hr Hn; [done|].
  destruct fuel' as [|fuel']; [done|].
  rewrite build_structure_unfold in Hn.
  destruct (children_of fuel' hd m) as [children|] eqn:Hch; [|done].
  simpl in Hn. injection Hn as <-. rewrite node_count_Node.
  simpl in Hr. unfold children_of in Hch.
  assert (length (if level =? 0 then out ++ [m] else out) =
          length out + (if level =? 0 then 1 else 0)) as Hlen.
  { destruct (level =? 0); [rewrite length_app; simpl|]; lia. }
  destruct (OrderedDict.get m (hierarchy hd)) as [info|].
  - apply mapM_Some in Hch.
    rewrite (for_each_count _ _ _ _ _ _ Hr Hch), Hlen; [lia|].
    intros sub o o1 ch Hb Hg. simpl in Hb, Hg.
    destruct (OrderedDict.get (sub_type sub) (hierarchy hd)) as [ib|] eqn:Ht.
    + pose proof (IH _ _ _ _ _ _ _ _ _ Hb Hg) as Hc.
      replace (level + 1 =? 0) with false in Hc
        by (symmetry; apply Nat.eqb_neq; lia).
      rewrite length_app in Hc. simpl in Hc. lia.
    + injection Hb as <-. rewrite length_app. simpl.
      destruct fuel' as [|fuel']; [done|].
      rewrite build_structure_unfold in Hg. unfold children_of in Hg.
      rewrite Ht in Hg. simpl in Hg. injection Hg as <-. simpl. lia.
  - injection Hr as <-. injection Hch as <-. simpl. lia.
Qed.

(** X12. When the listing and the JSON export of a module both return,
    the listing has one line for each node of the tree. *)
Theorem listing_lines_are_tree_nodes hd fuel fuel' top i c txt tree :
  print_module_hierarchy fuel hd top 0 "" [] = Some txt →
  build_structure fuel' hd top i c = Some tree →
  length txt = node_count tree.
Proof.
  intros Htxt Htree.
  pose proof (print_counts_nodes _ _ _ _ _ _ _ _ _ _ _ Htxt Htree) as Hc.
  simpl in Hc. lia.
Qed.

(** *** The run of the extractor *)

Lemma print_module_hierarchy_extends hd fuel m level indent out r :
  print_module_hierarchy fuel hd m level indent out = Some r →
  ∃ l, r = (if level =? 0 then out ++ [m] else out) ++ l.
Proof.
  revert m level indent out r. induction fuel as [|fuel IH];
    intros m level indent out r Hr; [done|]. simpl in Hr.
  set (out0 := if level =? 0 then out ++ [m] else out) in *.
  destruct (OrderedDict.get m (hierarchy hd)) as [info|];
    [|injection Hr as <-; exists []; by rewrite app_nil_r].
  apply (for_each_preserves (λ o, ∃ l, o = out0 ++ l) _ _ _ _ Hr).
  - exists []. by rewrite app_nil_r.
  - intros sub o o' _ Hstep [l ->]. simpl in Hstep.
    destruct (OrderedDict.get (sub_type sub) (hierarchy hd)).
    + apply IH in Hstep as [l' ->].
      rewrite Nat.add_1_r. simpl. rewrite <- !app_assoc. by eexists.
    + injection Hstep as <-. rewrite <- app_assoc. by eexists.
Qed.

Section Run.
Context (list_of_set : list string → list string).
Context (Hset : list_of_set_ok list_of_set).
Context (str_lower : string → string).

Lemma select_known base_name doc :
  match select_top_module list_of_set str_lower base_name
          (parse_xml_module_hierarchy list_of_set doc) with
  | Some m => m ∈ module_names doc
  | None => doc_modules doc = []
  end.
Proof.
  destruct (decide (flagged doc = [])) as [Hf|Hf].
  - destruct (decide (never_instantiated doc = [])) as [Hr|Hr].
    + rewrite (select_fallback list_of_set Hset) by done.
      case_bool_decide as Hc.
      * destruct (doc_modules doc) as [|m ms] eqn:Hm; [done|]. simpl.
        unfold module_names. rewrite Hm. by left.
      * destruct (head_is_Some_elem _ Hc) as (m & -> & Hin).
        apply list_elem_of_filter in Hin as [_ Hin].
        by apply (parse_keys list_of_set) in Hin.
    + destruct (select_root list_of_set Hset str_lower base_name doc Hf Hr)
        as (m & -> & Hin).
      by apply list_elem_of_filter in Hin as [_ Hin].
    - destruct (select_flagged list_of_set Hset str_lower base_name doc Hf)
        as (m & -> & Hin).
      unfold flagged in Hin.
      apply list_elem_of_fmap in Hin as (m' & -> & [_ Hin]%list_elem_of_filter).
      by apply list_elem_of_fmap_2.
Qed.

End Run.

(** X13. The extractor fails to name a top module only for a document
    without modules, and the module it names is a module of the
    document. Hence [run_extract] returns [False] exactly when the
    document could not be read or has no module. When it returns
    [True], the two files it leaves are the listing and the JSON tree
    of the module that was selected: the first line of the listing and
    the root of the tree are that module, the root under the instance
    name "Top". On a design without a cycle of instances it returns
    [True] as soon as it selects a module. *)
Theorem run_extract_outcomes list_of_set str_lower fuel base_name doc :
  list_of_set_ok list_of_set →
  let hd := parse_xml_module_hierarchy list_of_set doc in
  let choice := select_top_module list_of_set str_lower base_name hd in
  let result := run_extract list_of_set str_lower fuel base_name (Some doc) in
  (choice = None ↔ doc_modules doc = []) ∧
  (∀ m, choice = Some m → m ∈ module_names doc) ∧
  run_extract list_of_set str_lower fuel base_name None = Some None ∧
  (result = Some None ↔ doc_modules doc = []) ∧
  (∀ out, result = Some (Some out) →
     ∃ m, choice = Some m ∧
          print_module_hierarchy fuel hd m 0 "" [] = Some (hierarchy_txt out) ∧
          build_structure fuel hd m "Top" None = Some (json_tree out) ∧
          head (hierarchy_txt out) = Some m ∧
          Module_name (json_tree out) = Some m ∧
          Instance_name (json_tree out) = Some "Top") ∧
  (∀ rank m, ranked hd rank → choice = Some m → rank m + 2 ≤ fuel →
     ∃ out, result = Some (Some out)).
Proof.
  intros Hset hd choice result.
  pose proof (select_known list_of_set Hset str_lower base_name doc) as Hsel.
  fold hd in Hsel. fold choice in Hsel.
  assert (choice = None ↔ doc_modules doc = []) as Hnone.
  { split.
    - intros H0. by rewrite H0 in Hsel.
    - intros Hm. destruct choice as [m|]; [|done].
      unfold module_names in Hsel. rewrite Hm in Hsel.
      by apply elem_of_nil in Hsel. }
  split; [done|]. split; [|split; [done|split; [|split]]].
  - intros m Hm. by rewrite Hm in Hsel.
  - rewrite <- Hnone. unfold result, run_extract. fold hd. fold choice.
    destruct choice as [m|]; [|done].
    destruct (print_module_hierarchy _ _ _ _ _ _); simpl; [|done].
    by destruct (build_structure _ _ _ _ _).
  - intros out. unfold result, run_extract. fold hd. fold choice.
    destruct choice as [m|]; [|done].
    destruct (print_module_hierarchy _ _ _ _ _ _) as [txt|] eqn:Htxt;
      simpl; [|done].
    destruct (build_structure _ _ _ _ _) as [tree|] eqn:Htree; simpl; [|done].
    intros [= <-]. exists m. split; [done|]. simpl.
    split; [done|]. split; [done|].
    apply print_module_hierarchy_extends in Htxt as [l ->].
    by apply build_structure_root in Htree as [? ?].
  - intros rank m Hrank Hm Hf. unfold result, run_extract. fold hd. fold choice.
    rewrite Hm.
    destruct (print_module_hierarchy_ranked hd rank Hrank fuel m 0 "" [])
      as [txt ->]; [lia|].
    destruct (build_structure_ranked hd rank Hrank fuel m "Top" None)
      as [tree ->]; [lia|].
    by eexists.
Qed.

(** *** The sample document *)

Lemma sample_ranked : ranked sample_hd sample_rank.
Proof.
  intros a b (info & sub & Hget & Hsub & <- & [ib Hb]).
  let h := eval vm_compute in (hierarchy sample_hd) in
    change (hierarchy sample_hd) with h in Hget, Hb.
  unfold sample_rank. cbn [OrderedDict.get] in Hget, Hb.
  repeat case_decide; simplify_eq; simpl in Hsub;
    try (by apply elem_of_nil in Hsub); try lia.
  all: repeat (apply elem_of_cons in Hsub as [->|Hsub]); simplify_eq;
    by apply elem_of_nil in Hsub.
Qed.

Lemma json_tree_shape_witness :
  build_structure 3 sample_hd "soc" "Top" None = Some sample_tree ∧
  all_fields_present sample_tree ∧ height sample_tree ≤ 3.
Proof.
  assert (build_structure 3 sample_hd "soc" "Top" None = Some sample_tree)
    as Hb by (vm_compute; reflexivity).
  split; [exact Hb|].
  destruct (json_tree_shape 3 sample_hd "soc" "Top" None sample_tree Hb)
    as (H1 & H2 & _).
  by split.
Defined.

Lemma walks_return_without_cycle_witness :
  ranked sample_hd sample_rank ∧
  ∃ txt tree,
    ∀ fuel, sample_rank "soc" + 2 ≤ fuel →
      print_module_hierarchy fuel sample_hd "soc" 0 "" [] = Some txt ∧
      build_structure fuel sample_hd "soc" "Top" None = Some tree.
Proof.
  split; [exact sample_ranked|].
  exact (walks_return_without_cycle sample_hd sample_rank "soc" sample_ranked).
Defined.

Lemma listing_lines_are_tree_nodes_witness :
  print_module_hierarchy 2 sample_hd "soc" 0 "" [] = Some sample_listing ∧
  build_structure 3 sample_hd "soc" "Top" None = Some sample_tree ∧
  length sample_listing = node_count sample_tree.
Proof.
  assert (print_module_hierarchy 2 sample_hd "soc" 0 "" [] = Some sample_listing)
    as Hp by (vm_compute; reflexivity).
  assert (build_structure 3 sample_hd "soc" "Top" None = Some sample_tree)
    as Hb by (vm_compute; reflexivity).
  split; [exact Hp|]. split; [exact Hb|].
  exact (listing_lines_are_tree_nodes sample_hd 2 3 "soc" "Top" None
           sample_listing sample_tree Hp Hb).
Defined.

Lemma parse_module_entry_witness :
  NoDup (module_names sample_doc) ∧
  XmlModule "pad" false None [] [] ∈ doc_modules sample_doc ∧
  ∃ info,
    OrderedDict.get "pad" (hierarchy sample_hd) = Some info ∧
    submodules info = [].
Proof.
  assert (NoDup (module_names sample_doc)) as Hnd by compute_done.
  assert (XmlModule "pad" false None [] [] ∈ doc_modules sample_doc) as Hin
    by (right; right; left).
  split; [exact Hnd|]. split; [exact Hin|].
  destruct (parse_module_entry in_order sample_doc _ Hnd Hin)
    as (info & Hg & Hs & _).
  exists info. by split.
Defined.

Lemma run_extract_outcomes_witness :
  list_of_set_ok in_order ∧
  run_extract in_order lower 3 "Vtop" (Some sample_doc) =
    Some (Some {| hierarchy_txt := sample_listing;
                  json_tree := sample_tree |}) ∧
  ∃ m, select_top_module in_order lower "Vtop" sample_hd = Some m ∧
       head sample_listing = Some m ∧
       Module_name sample_tree = Some m.
Proof.
  assert (run_extract in_order lower 3 "Vtop" (Some sample_doc) =
            Some (Some {| hierarchy_txt := sample_listing;
                          json_tree := sample_tree |})) as Hrun
    by (vm_compute; reflexivity).
  split; [apply in_order_ok|]. split; [exact Hrun|].
  destruct (run_extract_outcomes in_order lower 3 "Vtop" sample_doc in_order_ok)
    as (_ & _ & _ & _ & H & _).
  destruct (H _ Hrun) as (m & Hm & _ & _ & Hh & Hr & _).
  exists m. by split.
Defined.

End ExtractorMore.

(** ** More on the orchestrator *)

Module OrchestratorMore.
Import Comparator ComparatorProofs Orchestrator OrchestratorProofs More.

(** *** The verdict of the simulation *)

Lemma lower_app a b : lower (a +:+ b) = lower a +:+ lower b.
Proof.
  induction a as [|x a IH]; [done|].
  change (String x a +:+ b) with (String x (a +:+ b)). simpl. by rewrite IH.
Qed.

Lemma prefix_app s t : String.prefix s (s +:+ t) = true.
Proof.
  induction s as [|x s IH]; [by destruct t|].
  change (String x s +:+ t) with (String x (s +:+ t)). simpl.
  by destruct (ascii_dec x x).
Qed.

Lemma prefix_split s1 s2 :
  String.prefix s1 s2 = true → ∃ b, s2 = s1 +:+ b.
Proof.
  revert s2. induction s1 as [|x s1 IH]; intros s2 Hp; [by exists s2|].
  destruct s2 as [|y s2]; [done|]. simpl in Hp.
  destruct (ascii_dec x y) as [->|]; [|done].
  destruct (IH _ Hp) as [b ->]. by exists b.
Qed.

Lemma contains_unfold sub s :
  contains sub s =
  String.prefix sub s ||
  match s with EmptyString => false | String _ s' => contains sub s' end.
Proof. by destruct s. Qed.

Lemma contains_iff sub s :
  contains sub s = true ↔ ∃ a b, s = a +:+ sub +:+ b.
Proof.
  split.
  - induction s as [|x s IH]; rewrite contains_unfold, orb_true_iff.
    + intros [Hp|?]; [|done]. apply prefix_split in Hp as [b ->].
      by exists "", b.
    + intros [Hp|Hc].
      * apply prefix_split in Hp as [b ->]. by exists "", b.
      * destruct (IH Hc) as (a & b & ->). by exists (String x a), b.
  - intros (a & b & ->). induction a as [|x a IH].
    + rewrite contains_unfold. change ("" +:+ sub +:+ b) with (sub +:+ b).
      by rewrite prefix_app.
    + change (String x a +:+ sub +:+ b) with (String x (a +:+ sub +:+ b)).
      rewrite contains_unfold, IH. apply orb_true_r.
Qed.

(** X14. The simulation counts as passed exactly when the log, letter
    case apart, holds "sim passed" or "simulation passed" somewhere:
    a marker written in any letter case passes whatever stands before
    and after it, and a missing or empty log does not pass. *)
Theorem sim_pass_marker :
  SimLog.check_sim_pass None = false ∧
  SimLog.check_sim_pass (Some "") = false ∧
  (∀ content,
     SimLog.check_sim_pass (Some content) = true ↔
     ∃ a b, lower content = a +:+ "sim passed" +:+ b ∨
            lower content = a +:+ "simulation passed" +:+ b) ∧
  (∀ a m b,
     lower m = "sim passed" ∨ lower m = "simulation passed" →
     SimLog.check_sim_pass (Some (a +:+ m +:+ b)) = true).
Proof.
  assert (∀ content,
     SimLog.check_sim_pass (Some content) = true ↔
     ∃ a b, lower content = a +:+ "sim passed" +:+ b ∨
            lower content = a +:+ "simulation passed" +:+ b) as Hiff.
  { intros content. unfold SimLog.check_sim_pass.
    rewrite orb_true_iff, !contains_iff. naive_solver. }
  split; [done|]. split; [done|]. split; [done|].
  intros a m b Hm. apply Hiff. exists (lower a), (lower b).
  rewrite !lower_app. destruct Hm as [-> | ->]; [by left|by right].
Qed.

Lemma sim_pass_marker_witness :
  SimLog.check_sim_pass
    (Some ("%Warning: 3 lints. " +:+ "Simulation PASSED" +:+ " (12 ns)"))
  = true.
Proof.
  destruct sim_pass_marker as (_ & _ & _ & H).
  apply H. by right.
Defined.

(** *** The commands of a run *)

Lemma runs_of_app cmd l1 l2 :
  runs_of cmd (l1 ++ l2) = runs_of cmd l1 + runs_of cmd l2.
Proof. unfold runs_of. by rewrite filter_app, length_app. Qed.

Lemma runs_of_cmd cmd c :
  runs_of cmd [EvCmd c] = if decide (c = cmd) then 1 else 0.
Proof.
  unfold runs_of. case_decide as Hc.
  - subst. by rewrite filter_cons_True.
  - rewrite filter_cons_False; [done|]. congruence.
Qed.

Lemma runs_of_emit cmd c w :
  runs_of cmd (log (emit (EvCmd c) w)) =
  runs_of cmd (log w) + if decide (c = cmd) then 1 else 0.
Proof. simpl. by rewrite runs_of_app, runs_of_cmd. Qed.

Lemma runs_of_fix_one e cmd st d :
  runs_of cmd (log (fix_one e st d).1) = runs_of cmd (log st.1).
Proof.
  destruct (fix_one_cases e st d); simpl; [done|..];
    rewrite runs_of_app; unfold runs_of;
    rewrite ?filter_cons_False, ?filter_nil by done; simpl; lia.
Qed.

Lemma runs_of_foldl e cmd diffs st :
  runs_of cmd (log (foldl (fix_one e) st diffs).1) = runs_of cmd (log st.1).
Proof.
  revert st. induction diffs as [|d diffs IH]; intros st; simpl; [done|].
  by rewrite IH, runs_of_fix_one.
Qed.

(** One turn of the loop runs [make xml] once and [make all] at most
    once, and once when the loop goes on. *)
Lemma runs_of_iteration e w :
  runs_of "make xml" (log (iteration e w).1) =
    S (runs_of "make xml" (log w)) ∧
  runs_of "make all" (log w) ≤ runs_of "make all" (log (iteration e w).1) ∧
  runs_of "make all" (log (iteration e w).1) ≤
    S (runs_of "make all" (log w)) ∧
  ((iteration e w).2 = None →
   runs_of "make all" (log (iteration e w).1) =
     S (runs_of "make all" (log w))).
Proof.
  unfold iteration.
  pose proof (runs_of_emit "make xml" "make xml" w) as Hx.
  pose proof (runs_of_emit "make all" "make xml" w) as Ha.
  rewrite decide_True in Hx by done. rewrite decide_False in Ha by done.
  destruct (step2_parse_rtl e _); cbn [negb];
    [|cbn [fst snd]; rewrite Hx, Ha; repeat split; (lia || done)].
  destruct (step3_compare e _) as [[|d diffs]|];
    [| |cbn [fst snd]; rewrite Hx, Ha; repeat split; (lia || done)].
  - pose proof (runs_of_emit "make xml" "make all"
                  (emit (EvCmd "make xml") w)) as Hx2.
    pose proof (runs_of_emit "make all" "make all"
                  (emit (EvCmd "make xml") w)) as Ha2.
    rewrite decide_False in Hx2 by done. rewrite decide_True in Ha2 by done.
    destruct (check_sim_pass e _); cbn [fst snd]; rewrite Hx2, Ha2, Hx, Ha;
      repeat split; (lia || done).
  - set (st := foldl (fix_one e) (emit (EvCmd "make xml") w, []) (d :: diffs)).
    pose proof (runs_of_foldl e "make xml" (d :: diffs)
                  (emit (EvCmd "make xml") w, [])) as Hfx.
    pose proof (runs_of_foldl e "make all" (d :: diffs)
                  (emit (EvCmd "make xml") w, [])) as Hfa.
    fold st in Hfx, Hfa. cbn [fst] in Hfx, Hfa.
    case_bool_decide; [cbn [fst snd]; rewrite Hfx, Hfa, Hx, Ha;
                       repeat split; (lia || done)|].
    pose proof (runs_of_emit "make xml" "make all" st.1) as Hx2.
    pose proof (runs_of_emit "make all" "make all" st.1) as Ha2.
    rewrite decide_False in Hx2 by done. rewrite decide_True in Ha2 by done.
    destruct (check_sim_pass e _); cbn [fst snd];
      rewrite Hx2, Ha2, Hfx, Hfa, Hx, Ha; repeat split; (lia || done).
Qed.

Lemma iteration_not_exhausted e w : (iteration e w).2 ≠ Some Exhausted.
Proof.
  unfold iteration.
  repeat (first [case_match | case_bool_decide]); simpl; congruence.
Qed.

Lemma runs_of_iterations e n w :
  runs_of "make xml" (log (iterations e n w).1) ≤
    runs_of "make xml" (log w) + n ∧
  runs_of "make all" (log (iterations e n w).1) + runs_of "make xml" (log w) ≤
    runs_of "make xml" (log (iterations e n w).1) + runs_of "make all" (log w) ∧
  ((iterations e n w).2 = Exhausted →
   runs_of "make xml" (log (iterations e n w).1) =
     runs_of "make xml" (log w) + n ∧
   runs_of "make all" (log (iterations e n w).1) =
     runs_of "make all" (log w) + n) ∧
  (n ≠ 0 → runs_of "make xml" (log w) <
           runs_of "make xml" (log (iterations e n w).1)).
Proof.
  revert w. induction n as [|n IH]; intros w.
  - simpl. repeat split; (lia || done).
  - destruct (runs_of_iteration e w) as (Hx & Ha1 & Ha2 & Hnone).
    cbn [iterations]. destruct (iteration e w).2 as [v|] eqn:Hv.
    + cbn [fst snd]. rewrite Hx. split; [lia|]. split; [lia|].
      split; [|lia]. intros ->.
      by destruct (iteration_not_exhausted e w).
    + specialize (Hnone eq_refl).
      destruct (IH (iteration e w).1) as (I1 & I2 & I3 & I4).
      rewrite Hx in I1, I2, I3, I4. rewrite Hnone in I2, I3.
      split; [lia|]. split; [lia|]. split.
      * intros Hex. destruct (I3 Hex). lia.
      * intros _. destruct (decide (n = 0)) as [->|Hn]; [simpl; lia|].
        specialize (I4 Hn). lia.
Qed.

(** X15. A run started with an empty log runs [make xml] at most
    [MAX_ITER] times and [make all] no more often than [make xml]; a
    run that parsed the specification runs [make xml] at least once;
    and a run that ends exhausted has run both [MAX_ITER] times. *)
Theorem run_is_bounded e w0 :
  log w0 = [] →
  let r := main e w0 in
  runs_of "make xml" (log r.1) ≤ MAX_ITER ∧
  runs_of "make all" (log r.1) ≤ runs_of "make xml" (log r.1) ∧
  (r.2 ≠ SpecParsingFailed → 1 ≤ runs_of "make xml" (log r.1)) ∧
  (r.2 = Exhausted →
   runs_of "make xml" (log r.1) = MAX_ITER ∧
   runs_of "make all" (log r.1) = MAX_ITER).
Proof.
  intros Hlog r. unfold r, main.
  destruct (step1_parse_spec e w0); cbn [negb].
  - destruct (runs_of_iterations e MAX_ITER w0) as (I1 & I2 & I3 & I4).
    rewrite Hlog in *. change (runs_of _ []) with 0 in *.
    split; [lia|]. split; [lia|]. split; [|exact I3].
    intros _. apply I4. done.
  - cbn [fst snd]. rewrite Hlog. change (runs_of _ []) with 0.
    split; [lia|]. split; [lia|]. split; [done|done].
Qed.

Lemma run_is_bounded_witness :
  log one_file = [] ∧
  runs_of "make xml" (log (main always_fix one_file).1) ≤ MAX_ITER.
Proof.
  split; [reflexivity|].
  exact (proj1 (run_is_bounded always_fix one_file eq_refl)).
Defined.

(** *** The files of the repair loop *)





(** *** Repairs that change nothing *)

(** X17. When every diff of an iteration names no file, names a file
    that is not there, or gets from the repair service no text or an
    empty text, the repair loop modifies no file, leaves the files as
    they are and does nothing but ask the service; the run then ends
    there with the verdict "no file modified". *)
Theorem unusable_repairs_change_nothing e w diffs :
  let w1 := emit (EvCmd "make xml") w in
  let st := foldl (fix_one e) (w1, []) diffs in
  step2_parse_rtl e w1 = true →
  step3_compare e w1 = Some diffs →
  diffs ≠ [] →
  (∀ d, d ∈ diffs →
     file d = "" ∨ files w !! file d = None ∨
     ∀ c w', get_llm_fix e d c w' = None ∨ get_llm_fix e d c w' = Some "") →
  st.2 = [] ∧ files st.1 = files w ∧
  (∃ evs, log st.1 = log w1 ++ evs ∧
          Forall (λ ev, ∃ path, ev = EvFix path) evs) ∧
  iteration e w = (st.1, Some NoFileModified).
Proof.
  intros w1 st Hrtl Hcmp Hne Hd.
  assert (st.2 = []) as Hmod.
  { by apply unusable_repairs_modify_nothing. }
  destruct (foldl_fix_one_none e diffs (w1, []) Hmod) as (_ & Hf & Hevs).
  split; [done|]. split; [done|]. split; [done|].
  unfold iteration. fold w1. rewrite Hrtl, Hcmp. simpl.
  destruct diffs as [|d diffs]; [done|]. fold st.
  by rewrite bool_decide_eq_true_2.
Qed.

Lemma unusable_repairs_change_nothing_witness :
  step2_parse_rtl never_fix (emit (EvCmd "make xml") one_file) = true ∧
  step3_compare never_fix (emit (EvCmd "make xml") one_file)
    = Some [Diff "top.v" Missing Missing] ∧
  (foldl (fix_one never_fix) (emit (EvCmd "make xml") one_file, [])
     [Diff "top.v" Missing Missing]).2 = [].
Proof.
  split; [reflexivity|]. split; [reflexivity|].
  refine (proj1 (unusable_repairs_change_nothing never_fix one_file
                   [Diff "top.v" Missing Missing] eq_refl eq_refl _ _));
    [done|].
  intros d _. right. right. intros c w'. by left.
Defined.

(** *** The verdict and the last simulation *)

Lemma iteration_verdict e w :
  match (iteration e w).2 with
  | Some SimulationPassed =>
      last (log (iteration e w).1) = Some (EvCmd "make all") ∧
      check_sim_pass e (iteration e w).1 = true
  | Some CleanButFailing | None =>
      last (log (iteration e w).1) = Some (EvCmd "make all") ∧
      check_sim_pass e (iteration e w).1 = false
  | Some SpecParsingFailed | Some Exhausted => False
  | Some Aborted | Some NoFileModified =>
      runs_of "make all" (log (iteration e w).1) = runs_of "make all" (log w)
  end.
Proof.
  unfold iteration.
  pose proof (runs_of_emit "make all" "make xml" w) as Ha.
  rewrite decide_False in Ha by done. rewrite Nat.add_0_r in Ha.
  destruct (step2_parse_rtl e _); cbn [negb]; [|done].
  destruct (step3_compare e _) as [[|d diffs]|]; [| |done].
  - destruct (check_sim_pass e _) eqn:Hc; cbn [fst snd];
      (split; [simpl; by rewrite last_snoc|done]).
  - case_bool_decide; cbn [fst snd].
    + by rewrite runs_of_foldl.
    + destruct (check_sim_pass e _) eqn:Hc; cbn [fst snd];
        (split; [simpl; by rewrite last_snoc|done]).
Qed.

Lemma iterations_verdict e n w :
  match (iterations e n w).2 with
  | SimulationPassed =>
      last (log (iterations e n w).1) = Some (EvCmd "make all") ∧
      check_sim_pass e (iterations e n w).1 = true
  | CleanButFailing =>
      last (log (iterations e n w).1) = Some (EvCmd "make all") ∧
      check_sim_pass e (iterations e n w).1 = false
  | Exhausted =>
      n ≠ 0 →
      last (log (iterations e n w).1) = Some (EvCmd "make all") ∧
      check_sim_pass e (iterations e n w).1 = false
  | SpecParsingFailed => False
  | Aborted | NoFileModified => True
  end.
Proof.
  revert w. induction n as [|n IH]; intros w; [done|].
  pose proof (iteration_verdict e w) as Hit.
  cbn [iterations]. destruct (iteration e w).2 as [v|] eqn:Hv.
  - cbn [fst snd]. by destruct v.
  - specialize (IH (iteration e w).1).
    destruct (iterations e n (iteration e w).1).2 eqn:Hn; try done.
    intros _. destruct n as [|n]; [|by apply IH].
    simpl. exact Hit.
Qed.

(** X18. A run reports that the simulation passed only when the last
    thing it did was to run [make all] and the log of that run passes;
    a run that ends clean but failing, or exhausted, ended on a
    [make all] whose log does not pass. *)
Theorem verdict_reflects_last_simulation e w0 :
  let r := main e w0 in
  (r.2 = SimulationPassed →
   last (log r.1) = Some (EvCmd "make all") ∧ check_sim_pass e r.1 = true) ∧
  (r.2 = CleanButFailing ∨ r.2 = Exhausted →
   last (log r.1) = Some (EvCmd "make all") ∧ check_sim_pass e r.1 = false).
Proof.
  intros r. unfold r, main.
  destruct (step1_parse_spec e w0); cbn [negb];
    [|split; [done|by intros [?|?]]].
  pose proof (iterations_verdict e MAX_ITER w0) as Hv.
  destruct (iterations e MAX_ITER w0).2; split; try done;
    try (by intros [?|?]).
  - intros _. by apply Hv.
Qed.

Lemma verdict_reflects_last_simulation_witness :
  (main always_fix one_file).2 = Exhausted ∧
  last (log (main always_fix one_file).1) = Some (EvCmd "make all").
Proof.
  assert ((main always_fix one_file).2 = Exhausted) as Hv
    by (vm_compute; reflexivity).
  split; [exact Hv|].
  exact (proj1 (proj2 (verdict_reflects_last_simulation always_fix one_file)
                  (or_intror Hv))).
Defined.

End OrchestratorMore.
